(** * TaskmasterAI: the AI service layer

    A shallow embedding of [src/services/geminiService.ts]: the streaming
    response splitter [enhanceTaskWithAIStream], the two chunk forwarders
    [streamSubTasksWithAI] and [streamContextualInfoWithAI] with its source
    extraction, and the two one-shot calls [parseTaskStringWithAI] and
    [suggestTagsWithAI].

    Conventions of the embedding:
    - a JavaScript string is the list of its UTF-16 code units;
    - the hosted model is a black box: what the transport delivers (a
      response, a sequence of chunks, a thrown value) is an input of the
      embedded function;
    - a callback is recorded as an event appended to a log, in call order.
      For [streamContextualInfoWithAI], whose [catch] clause calls a callback
      again, a callback may also throw ([streamContextualInfoWithAI_on]); the
      other functions are embedded for callbacks that return normally, as
      the state setters the form passes do;
    - an [async] function that rejects is a function that returns [Throw];
    - [console.error] has no observable effect for the caller and is left out. *)

From stdpp Require Import gmap list strings sorting.
From Stdlib Require Import ZArith NArith Floats.

#[local] Set Warnings "-register-all".
#[local] Open Scope Z_scope.

(** ** JavaScript strings *)

Module JsString.

(** A UTF-16 code unit. *)
Definition code_unit := N.

Definition jstring := list code_unit.

(** A string literal of the source whose characters are all ASCII. *)
Definition lit (s : string) : jstring :=
  map Ascii.N_of_ascii (String.list_ascii_of_string s).

(** The line feed, ['\n'] in the source. *)
Definition LF : code_unit := 10%N.

(** ECMAScript WhiteSpace and LineTerminator code points: what
    [String.prototype.trim] strips and what [\s] matches. All of them are in
    the Basic Multilingual Plane, hence single code units. *)
Definition isWhiteSpace (c : code_unit) : bool :=
  ((9 <=? c) && (c <=? 13) ||            (* TAB LF VT FF CR *)
   (c =? 32) || (c =? 160) ||            (* SP NBSP *)
   (c =? 5760) ||                        (* U+1680 *)
   (8192 <=? c) && (c <=? 8202) ||       (* U+2000 .. U+200A *)
   (c =? 8232) || (c =? 8233) ||         (* LS PS *)
   (c =? 8239) || (c =? 8287) ||         (* U+202F U+205F *)
   (c =? 12288) || (c =? 65279))%N.      (* U+3000 ZWNBSP *)

Fixpoint trimStart (s : jstring) : jstring :=
  match s with
  | [] => []
  | c :: r => if isWhiteSpace c then trimStart r else s
  end.

Definition trimEnd (s : jstring) : jstring :=
  reverse (trimStart (reverse s)).

(** [s.trim()] *)
Definition trim (s : jstring) : jstring := trimEnd (trimStart s).

Fixpoint indexOf_from (c : code_unit) (s : jstring) (i : Z) : Z :=
  match s with
  | [] => -1
  | x :: r => if (x =? c)%N then i else indexOf_from c r (i + 1)
  end.

(** [s.indexOf(c)] for a one-unit search string [c]: the index of its first
    occurrence, [-1] when there is none. *)
Definition indexOf (s : jstring) (c : code_unit) : Z := indexOf_from c s 0.

Definition clamp (s : jstring) (i : Z) : Z :=
  Z.min (Z.max i 0) (Z.of_nat (length s)).

(** [s.substring(a, b)]: both ends clamped to [0, s.length], swapped when
    out of order. *)
Definition substring (s : jstring) (a b : Z) : jstring :=
  let from := Z.min (clamp s a) (clamp s b) in
  let to := Z.max (clamp s a) (clamp s b) in
  take (Z.to_nat (to - from)) (drop (Z.to_nat from) s).

(** [s.substring(a)] *)
Definition substring_from (s : jstring) (a : Z) : jstring :=
  substring s a (Z.of_nat (length s)).

Fixpoint startsWith (s p : jstring) {struct p} : bool :=
  match p, s with
  | [], _ => true
  | _ :: _, [] => false
  | y :: p', x :: s' => (x =? y)%N && startsWith s' p'
  end.

(** Truthiness of a string: only the empty string is falsy. *)
Definition truthy (s : jstring) : bool :=
  match s with [] => false | _ :: _ => true end.

(** [s.replace(/\s+/g, r)]: every maximal run of white space becomes one
    copy of [r]. [in_run] tells that the unit before was white space. *)
Fixpoint replace_ws_runs_aux (r : jstring) (in_run : bool) (s : jstring)
  : jstring :=
  match s with
  | [] => []
  | c :: s' =>
      if isWhiteSpace c
      then (if in_run then [] else r) ++ replace_ws_runs_aux r true s'
      else c :: replace_ws_runs_aux r false s'
  end.

Definition replace_ws_runs (s r : jstring) : jstring :=
  replace_ws_runs_aux r false s.

End JsString.

Export JsString.

(** ** Values thrown and results of the asynchronous functions *)

(** A thrown value, by where it was made. The transport may throw anything;
    the runtime throws [TypeError] and [SyntaxError], which are [Error]s;
    [NewError m] is [new Error(m)] built by the service itself. *)
Inductive thrown :=
| TransportError (isError : bool) (message : jstring)
| RuntimeError (message : jstring)
| NewError (message : jstring).

(** [e instanceof Error] *)
Definition instanceofError (e : thrown) : bool :=
  match e with
  | TransportError b _ => b
  | RuntimeError _ | NewError _ => true
  end.

Definition message_of (e : thrown) : jstring :=
  match e with
  | TransportError _ m | RuntimeError m | NewError m => m
  end.

Inductive result (A : Type) :=
| Return (a : A)
| Throw (e : thrown).
Arguments Return {A} a.
Arguments Throw {A} e.

(** ** Responses of the transport *)

(** [groundingChunks[i].web] *)
Record web_ref := {
  web_uri : option jstring;
  web_title : option jstring
}.

Record groundingChunk := { gc_web : option web_ref }.

Record groundingMetadata := {
  groundingChunks : option (list groundingChunk)
}.

Record candidate := { cand_groundingMetadata : option groundingMetadata }.

(** [GenerateContentResponse]: the [text] accessor yields [undefined] when
    the response has no text part. *)
Record GenerateContentResponse := {
  text : option jstring;
  candidates : option (list candidate)
}.

(** What [await ai.models.generateContent(...)] does. *)
Inductive call_outcome :=
| CallReturns (response : GenerateContentResponse)
| CallThrows (e : thrown).

(** What [await ai.models.generateContentStream(...)] followed by
    [for await (const chunk of stream)] does: the call itself throws, or the
    stream delivers [chunks] in order and then ends ([None]) or throws. *)
Inductive stream_outcome :=
| StreamCallThrows (e : thrown)
| Stream (chunks : list GenerateContentResponse) (failure : option thrown).

(** The concatenation of the text fragments of a chunk sequence; a chunk
    whose [text] is not a string contributes nothing. *)
Definition stream_text (chunks : list GenerateContentResponse) : jstring :=
  concat (omap text chunks).

(** ** enhanceTaskWithAIStream *)

Record EnhancedTaskDetails := {
  refinedTitle : jstring;
  refinedDescription : jstring
}.

Inductive enhance_event :=
| OnTitleCandidate (title : jstring)
| OnDescriptionCandidate (description : jstring).

(** The local variables of [enhanceTaskWithAIStream]. *)
Record enhance_state := {
  accumulatedResponseText : jstring;
  finalTitle : jstring;
  finalDescription : jstring;
  titleSent : bool;
  firstNewlineIndex : Z
}.

Definition enhance_init (currentTitle currentDescription : jstring)
  : enhance_state :=
  {| accumulatedResponseText := [];
     finalTitle := currentTitle;
     finalDescription := currentDescription;
     titleSent := false;
     firstNewlineIndex := -1 |}.

(** The body of the [for await] loop for a chunk whose text is [chunkText]. *)
Definition enhance_absorb (st : enhance_state) (chunkText : jstring)
  : enhance_state * list enhance_event :=
  let acc := accumulatedResponseText st ++ chunkText in
  if firstNewlineIndex st =? -1 then
    let idx := indexOf acc LF in
    if negb (idx =? -1) then
      let title := trim (substring acc 0 idx) in
      let descStart := substring_from acc (idx + 1) in
      ({| accumulatedResponseText := acc;
          finalTitle := title;
          finalDescription := descStart;
          titleSent := true;
          firstNewlineIndex := idx |},
       [OnTitleCandidate title; OnDescriptionCandidate descStart])
    else
      let title := trim acc in
      ({| accumulatedResponseText := acc;
          finalTitle := title;
          finalDescription := finalDescription st;
          titleSent := titleSent st;
          firstNewlineIndex := idx |},
       [OnTitleCandidate title])
  else
    let desc := substring_from acc (firstNewlineIndex st + 1) in
    ({| accumulatedResponseText := acc;
        finalTitle := finalTitle st;
        finalDescription := desc;
        titleSent := titleSent st;
        firstNewlineIndex := firstNewlineIndex st |},
     [OnDescriptionCandidate desc]).

(** One iteration: [if (typeof chunkText !== 'string') continue;]. *)
Definition enhance_step (st : enhance_state) (chunk : GenerateContentResponse)
  : enhance_state * list enhance_event :=
  match text chunk with
  | None => (st, [])
  | Some chunkText => enhance_absorb st chunkText
  end.

(** The whole loop, with the callbacks it makes, in order. *)
Fixpoint enhance_loop (st : enhance_state)
  (chunks : list GenerateContentResponse)
  : enhance_state * list enhance_event :=
  match chunks with
  | [] => (st, [])
  | chunk :: rest =>
      let '(st1, ev1) := enhance_step st chunk in
      let '(st2, ev2) := enhance_loop st1 rest in
      (st2, ev1 ++ ev2)
  end.

(** The code after the loop: the final split, the closing callbacks and the
    returned pair. *)
Definition enhance_finish (st : enhance_state)
  : list enhance_event * EnhancedTaskDetails :=
  let acc := accumulatedResponseText st in
  let idx := indexOf acc LF in
  let title :=
    if negb (idx =? -1) then trim (substring acc 0 idx) else trim acc in
  let description :=
    if negb (idx =? -1) then trim (substring_from acc (idx + 1)) else [] in
  let title_events :=
    if titleSent st then [OnTitleCandidate title]
    else if truthy title then [OnTitleCandidate title]
    else [] in
  (title_events ++ [OnDescriptionCandidate description],
   {| refinedTitle := title; refinedDescription := description |}).

Definition API_KEY_missing : thrown :=
  NewError (lit "Gemini API key not configured.").

(** [!API_KEY]: the key is [undefined] or the empty string. *)
Definition not_configured (API_KEY : option jstring) : bool :=
  match API_KEY with
  | None => true
  | Some k => negb (truthy k)
  end.

(** ** streamSubTasksWithAI *)

(** The loop of [streamSubTasksWithAI]: every text fragment is handed to
    [onChunk] and appended. The state is [accumulatedText]; the log holds the
    arguments of [onChunk]. *)
Fixpoint subtasks_loop (accumulatedText : jstring)
  (chunks : list GenerateContentResponse) : jstring * list jstring :=
  match chunks with
  | [] => (accumulatedText, [])
  | chunk :: rest =>
      match text chunk with
      | Some textChunk =>
          let '(acc, log) := subtasks_loop (accumulatedText ++ textChunk) rest in
          (acc, textChunk :: log)
      | None => subtasks_loop accumulatedText rest
      end
  end.

(** ** streamContextualInfoWithAI *)

Record ContextualSource := {
  uri : jstring;
  title : jstring
}.

Inductive context_event :=
| OnChunk (chunk : jstring)
| OnSources (sources : list ContextualSource).

(** The filter predicate [web => web?.uri && web.uri.startsWith('http')],
    as the truthiness [filter] sees. *)
Definition web_passes (web : option web_ref) : bool :=
  match web with
  | None => false
  | Some w =>
      match web_uri w with
      | None => false
      | Some u => truthy u && startsWith u (lit "http")
      end
  end.

(** [a || b] on an optional string and a string. *)
Definition or_else (a : option jstring) (b : jstring) : jstring :=
  match a with
  | Some s => if truthy s then s else b
  | None => b
  end.

(** [web => ({ uri: web!.uri, title: web!.title || web!.uri })]. It is only
    applied to what the filter kept, where [web] and its [uri] are present;
    the other two cases are given the empty string. *)
Definition to_source (web : option web_ref) : ContextualSource :=
  match web with
  | Some w =>
      let u := default [] (web_uri w) in
      {| uri := u; title := or_else (web_title w) u |}
  | None => {| uri := []; title := [] |}
  end.

(** [groundingChunks.map(gc => gc.web).filter(...).map(...)] *)
Definition extract_sources (gcs : list groundingChunk)
  : list ContextualSource :=
  map to_source (List.filter web_passes (map gc_web gcs)).

(** [finalApiResponse.candidates?.[0]?.groundingMetadata] *)
Definition metadata_of (response : GenerateContentResponse)
  : option groundingMetadata :=
  match candidates response with
  | Some (c :: _) => cand_groundingMetadata c
  | _ => None
  end.

(** The chunks guarded by [groundingMetadata?.groundingChunks &&
    groundingMetadata.groundingChunks.length > 0]. *)
Definition cited_chunks (response : GenerateContentResponse)
  : option (list groundingChunk) :=
  match metadata_of response with
  | Some gm =>
      match groundingChunks gm with
      | Some (gc :: gcs) => Some (gc :: gcs)
      | _ => None
      end
  | None => None
  end.

(** The [if (finalApiResponse)] block after the loop. *)
Definition report_sources (finalApiResponse : option GenerateContentResponse)
  : list context_event :=
  match finalApiResponse with
  | Some response =>
      match cited_chunks response with
      | Some gcs => [OnSources (extract_sources gcs)]
      | None => [OnSources []]
      end
  | None => []
  end.

(** The [if (finalApiResponse)] block of the [catch] clause: no [else]. *)
Definition salvage_sources (finalApiResponse : option GenerateContentResponse)
  : list context_event :=
  match finalApiResponse with
  | Some response =>
      match cited_chunks response with
      | Some gcs => [OnSources (extract_sources gcs)]
      | None => []
      end
  | None => []
  end.

(** The local variables of [streamContextualInfoWithAI]. *)
Record context_state := {
  accumulatedText : jstring;
  finalApiResponse : option GenerateContentResponse
}.

Definition context_step (st : context_state) (chunk : GenerateContentResponse)
  : context_state * list context_event :=
  match text chunk with
  | Some textChunk =>
      ({| accumulatedText := accumulatedText st ++ textChunk;
          finalApiResponse := Some chunk |},
       [OnChunk textChunk])
  | None =>
      ({| accumulatedText := accumulatedText st;
          finalApiResponse := Some chunk |}, [])
  end.

Fixpoint context_loop (st : context_state)
  (chunks : list GenerateContentResponse)
  : context_state * list context_event :=
  match chunks with
  | [] => (st, [])
  | chunk :: rest =>
      let '(st1, ev1) := context_step st chunk in
      let '(st2, ev2) := context_loop st1 rest in
      (st2, ev1 ++ ev2)
  end.

(** The two callbacks of [streamContextualInfoWithAI] are closures of the
    caller and may throw. [throws log e] is what the call [e] throws, if
    anything, when the calls of [log] have been made before it. *)
Definition callbacks := list context_event -> context_event -> option thrown.

(** Callbacks that return normally, whatever they are called with. *)
Definition returning : callbacks := fun _ _ => None.

(** Make the calls [events] in order after those of [log], up to the first
    one that throws; a call that throws has been made. *)
Fixpoint invoke_all (throws : callbacks) (log events : list context_event)
  : list context_event * option thrown :=
  match events with
  | [] => (log, None)
  | e :: rest =>
      match throws log e with
      | Some err => (log ++ [e], Some err)
      | None => invoke_all throws (log ++ [e]) rest
      end
  end.

(** The [for await] loop with callbacks that may throw: the chunk is
    retained before [onChunk] is called, the text is appended after it has
    returned. The result holds the state, the log and the value that ended
    the loop, if one was thrown. *)
Fixpoint context_loop_on (throws : callbacks) (st : context_state)
  (log : list context_event) (chunks : list GenerateContentResponse)
  : context_state * list context_event * option thrown :=
  match chunks with
  | [] => (st, log, None)
  | chunk :: rest =>
      match text chunk with
      | Some textChunk =>
          match throws log (OnChunk textChunk) with
          | Some err =>
              ({| accumulatedText := accumulatedText st;
                  finalApiResponse := Some chunk |},
               log ++ [OnChunk textChunk], Some err)
          | None =>
              context_loop_on throws
                {| accumulatedText := accumulatedText st ++ textChunk;
                   finalApiResponse := Some chunk |}
                (log ++ [OnChunk textChunk]) rest
          end
      | None =>
          context_loop_on throws
            {| accumulatedText := accumulatedText st;
               finalApiResponse := Some chunk |} log rest
      end
  end.

(** The [catch] clause, entered with [error]: the best-effort report, then
    [throw error]; if the report itself throws, that value leaves the
    function instead. *)
Definition context_catch (throws : callbacks) (st : context_state)
  (log : list context_event) (error : thrown)
  : list context_event * result jstring :=
  let '(log1, thrown_again) :=
    invoke_all throws log (salvage_sources (finalApiResponse st)) in
  (log1, Throw (default error thrown_again)).

(** ** Parsed JSON *)

(** A value produced by [JSON.parse]; numbers are IEEE 754 doubles. *)
Inductive json :=
| JNull
| JBool (b : bool)
| JNum (x : float)
| JStr (s : jstring)
| JArr (elements : list json)
| JObj (properties : gmap jstring json).

(** Truthiness of a value; a missing property reads as [undefined]. *)
Definition json_truthy (v : json) : bool :=
  match v with
  | JNull => false
  | JBool b => b
  | JNum x => negb (PrimFloat.is_zero x || PrimFloat.is_nan x)
  | JStr s => truthy s
  | JArr _ | JObj _ => true
  end.

Definition prop_truthy (v : option json) : bool :=
  match v with
  | Some x => json_truthy x
  | None => false
  end.

(** [Array.isArray(v)] *)
Definition isArray (v : option json) : bool :=
  match v with
  | Some (JArr _) => true
  | _ => false
  end.

(** [typeof v === 'string'] *)
Definition isString (v : json) : bool :=
  match v with
  | JStr _ => true
  | _ => false
  end.

Definition jstring_eqb (a b : jstring) : bool := bool_decide (a = b).

(** [['Low', 'Medium', 'High'].includes(prio)]: only a string with the same
    code units is the same value as one of the three. *)
Definition priority_literals : list jstring :=
  [lit "Low"; lit "Medium"; lit "High"].

Definition includes_priority (prio : json) : bool :=
  match prio with
  | JStr s => existsb (jstring_eqb s) priority_literals
  | _ => false
  end.

(** What [parseTaskStringWithAI] resolves to: the parsed value itself, with
    its properties rewritten in place. [JSON.parse] may yield an array, which
    is an object too and then carries a [tags] property of its own. *)
Inductive parsed_task :=
| TaskObject (properties : gmap jstring json)
| TaskArray (elements : list json) (properties : gmap jstring json).

Definition task_properties (t : parsed_task) : gmap jstring json :=
  match t with
  | TaskObject m | TaskArray _ m => m
  end.

(** The two [if] statements on [parsedData.priority] and [parsedData.tags],
    on the own properties of the parsed object. *)
Definition coerce_properties (m : gmap jstring json) : gmap jstring json :=
  let m1 :=
    if prop_truthy (m !! lit "priority") then
      match m !! lit "priority" with
      | Some prio =>
          if includes_priority prio then <[lit "priority" := prio]> m
          else <[lit "priority" := JNull]> m
      | None => m
      end
    else m in
  if negb (prop_truthy (m1 !! lit "tags")) || negb (isArray (m1 !! lit "tags"))
  then <[lit "tags" := JArr []]> m1
  else m1.

(** Faults of the runtime met by the two one-shot calls. How the engine words
    the message of each is not fixed by the language. *)
Inductive runtime_fault :=
| ReadPropertyOfUndefined (property : jstring)
| ReadPropertyOfNull (property : jstring)
| AssignPropertyOfPrimitive (property : jstring) (target : json).

Section Service.

(** [process.env.API_KEY], read once when the module is loaded. *)
Variable API_KEY : option jstring.

(** The runtime library, as far as the service calls it and the language
    leaves it to the engine or to tables too large to list here:
    [JSON.parse] (a value, or the message of the [SyntaxError] it throws),
    [jsonStr.match(fenceRegex)] (the array of the match and its capture
    groups, [None] for [null]), [String.prototype.toLowerCase], and the
    wording of the engine's own errors. *)
Variable JSON_parse : jstring -> json + jstring.
Variable fenceRegex_match : jstring -> option (list (option jstring)).
Variable toLowerCase : jstring -> jstring.
Variable fault_message : runtime_fault -> jstring.

Definition enhanceTaskWithAIStream
  (currentTitle currentDescription : jstring) (outcome : stream_outcome)
  : list enhance_event * result EnhancedTaskDetails :=
  if not_configured API_KEY then ([], Throw API_KEY_missing)
  else
    match outcome with
    | StreamCallThrows e => ([], Throw e)
    | Stream chunks failure =>
        let '(st, events) :=
          enhance_loop (enhance_init currentTitle currentDescription) chunks in
        match failure with
        | Some e => (events, Throw e)
        | None =>
            let '(closing, details) := enhance_finish st in
            (events ++ closing, Return details)
        end
    end.

(** The result pairs the arguments of [onChunk], in call order, with what
    the promise settles to. *)
Definition streamSubTasksWithAI (outcome : stream_outcome)
  : list jstring * result jstring :=
  if not_configured API_KEY then ([], Throw API_KEY_missing)
  else
    match outcome with
    | StreamCallThrows e => ([], Throw e)
    | Stream chunks failure =>
        let '(acc, log) := subtasks_loop [] chunks in
        match failure with
        | Some e => (log, Throw e)
        | None => (log, Return acc)
        end
    end.

(** [streamContextualInfoWithAI] with the callbacks [throws]. Everything
    from the call of the transport to [return accumulatedText] is inside the
    [try]: a value thrown by the transport, by [onChunk] or by the
    [onSources] call that follows the loop enters the [catch] clause. *)
Definition streamContextualInfoWithAI_on (throws : callbacks)
  (outcome : stream_outcome) : list context_event * result jstring :=
  if not_configured API_KEY then ([], Throw API_KEY_missing)
  else
    let st0 := {| accumulatedText := []; finalApiResponse := None |} in
    match outcome with
    | StreamCallThrows e => context_catch throws st0 [] e
    | Stream chunks failure =>
        let '(st, log, thrown_in_loop) := context_loop_on throws st0 [] chunks in
        match thrown_in_loop with
        | Some err => context_catch throws st log err
        | None =>
            match failure with
            | Some e => context_catch throws st log e
            | None =>
                let '(log1, thrown_in_report) :=
                  invoke_all throws log
                    (report_sources (finalApiResponse st)) in
                match thrown_in_report with
                | Some err => context_catch throws st log1 err
                | None => (log1, Return (accumulatedText st))
                end
            end
        end
    end.

(** [streamContextualInfoWithAI] called with callbacks that return
    normally. *)
Definition streamContextualInfoWithAI (outcome : stream_outcome)
  : list context_event * result jstring :=
  streamContextualInfoWithAI_on returning outcome.

(** [match && match[2]] then [match[2].trim()], else [jsonStr] as it is. *)
Definition strip_fence (jsonStr : jstring) : jstring :=
  match fenceRegex_match jsonStr with
  | Some groups =>
      match groups !! 2%nat with
      | Some (Some body) => if truthy body then trim body else jsonStr
      | _ => jsonStr
      end
  | None => jsonStr
  end.

(** From [response.text.trim()] to [JSON.parse(jsonStr)], shared by the two
    one-shot calls. *)
Definition parse_response (response : GenerateContentResponse)
  : result json :=
  match text response with
  | None =>
      Throw (RuntimeError (fault_message (ReadPropertyOfUndefined (lit "trim"))))
  | Some t =>
      match JSON_parse (strip_fence (trim t)) with
      | inl v => Return v
      | inr syntax_error => Throw (RuntimeError syntax_error)
      end
  end.

(** The statements of [parseTaskStringWithAI] between [JSON.parse] and
    [return parsedData]. Reading a property of [null] throws, and so does
    storing [tags] into a primitive (module code is strict). *)
Definition coerce_parsed (parsedData : json) : result parsed_task :=
  match parsedData with
  | JObj m => Return (TaskObject (coerce_properties m))
  | JArr elements => Return (TaskArray elements (coerce_properties ∅))
  | JNull =>
      Throw (RuntimeError (fault_message (ReadPropertyOfNull (lit "priority"))))
  | JBool _ | JNum _ | JStr _ =>
      Throw (RuntimeError
               (fault_message (AssignPropertyOfPrimitive (lit "tags") parsedData)))
  end.

(** The [catch] clause of [parseTaskStringWithAI]. *)
Definition parse_failure (error : thrown) : thrown :=
  NewError
    (lit "Failed to parse task with AI." ++
     (if instanceofError error
      then lit " Details: " ++ message_of error
      else [])).

Definition parseTaskStringWithAI (outcome : call_outcome)
  : result parsed_task :=
  if not_configured API_KEY then Throw API_KEY_missing
  else
    let attempt :=
      match outcome with
      | CallThrows e => Throw e
      | CallReturns response =>
          match parse_response response with
          | Return parsedData => coerce_parsed parsedData
          | Throw e => Throw e
          end
      end in
    match attempt with
    | Return task => Return task
    | Throw error => Throw (parse_failure error)
    end.

(** [tag => tag.toLowerCase().replace(/\s+/g, '-')] *)
Definition normalize_tag (tag : jstring) : jstring :=
  replace_ws_runs (toLowerCase tag) (lit "-").

Definition string_of (v : json) : jstring :=
  match v with
  | JStr s => s
  | _ => []
  end.

(** The statements of [suggestTagsWithAI] after [JSON.parse]. [string_of]
    is only applied under [every(tag => typeof tag === 'string')]. *)
Definition tags_of_parsed (parsedTags : json) : list jstring :=
  match parsedTags with
  | JArr elements =>
      if forallb isString elements
      then map (fun tag => normalize_tag (string_of tag)) elements
      else []
  | _ => []
  end.

Definition suggest_failure : thrown :=
  NewError (lit "Failed to suggest tags with AI.").

Definition suggestTagsWithAI (outcome : call_outcome)
  : result (list jstring) :=
  if not_configured API_KEY then Throw API_KEY_missing
  else
    match outcome with
    | CallThrows _ => Throw suggest_failure
    | CallReturns response =>
        match parse_response response with
        | Return parsedTags => Return (tags_of_parsed parsedTags)
        | Throw _ => Throw suggest_failure
        end
    end.

End Service.

(** * Notions used to state the properties *)

(** What the loop maintains: the index and the flag are functions of the
    accumulated text. *)
Definition enhance_inv (st : enhance_state) : Prop :=
  firstNewlineIndex st = indexOf (accumulatedResponseText st) LF /\
  titleSent st = negb (indexOf (accumulatedResponseText st) LF =? -1).

(** A chunk that carries the text fragment [t] and nothing else. *)
Definition fragment (t : jstring) : GenerateContentResponse :=
  {| text := Some t; candidates := None |}.

(** The three fragments ["Buy milk\n"], ["Remember "], ["the reusable bags."]. *)
Definition buy_milk : list GenerateContentResponse :=
  [fragment (lit "Buy milk" ++ [LF]);
   fragment (lit "Remember ");
   fragment (lit "the reusable bags.")].

(** A configured key, for the examples. *)
Definition some_key : option jstring := Some (lit "k").

(** The arguments of the [onSources] calls of a log, in call order. *)
Definition onSources_calls (log : list context_event)
  : list (list ContextualSource) :=
  omap (fun e => match e with OnSources l => Some l | OnChunk _ => None end) log.

(** The candidates of a retained response that pass the filter. *)
Definition passing_candidates (response : GenerateContentResponse)
  : list (option web_ref) :=
  match cited_chunks response with
  | Some gcs => List.filter web_passes (map gc_web gcs)
  | None => []
  end.

(** A uri that begins with the scheme [http:] or [https:]. *)
Definition has_http_scheme (u : jstring) : bool :=
  startsWith u (lit "http:") || startsWith u (lit "https:").

(** The filter as the specification words it: a web reference whose uri is
    not empty and begins with an HTTP(S) scheme. *)
Definition spec_keeps (web : option web_ref) : Prop :=
  exists w u, web = Some w /\ web_uri w = Some u /\ u <> [] /\
              has_http_scheme u = true.

(** A citation candidate with a web reference that has a uri and no title. *)
Definition cite (u : jstring) : groundingChunk :=
  {| gc_web := Some {| web_uri := Some u; web_title := None |} |}.

(** A chunk of text [t] whose first candidate cites [gcs]. *)
Definition cited_fragment (t : jstring) (gcs : list groundingChunk)
  : GenerateContentResponse :=
  {| text := Some t;
     candidates :=
       Some [{| cand_groundingMetadata :=
                  Some {| groundingChunks := Some gcs |} |}] |}.

(** A parsed value that is an array whose every element is a string. *)
Definition is_string_array (v : json) : bool :=
  match v with
  | JArr elements => forallb isString elements
  | _ => false
  end.

Definition starts_with_ws (s : jstring) : bool :=
  match s with
  | c :: _ => isWhiteSpace c
  | [] => false
  end.

Definition ends_with_ws (s : jstring) : bool :=
  match last s with
  | Some c => isWhiteSpace c
  | None => false
  end.

(** The leading white space of a string. *)
Fixpoint leading_ws (s : jstring) : jstring :=
  match s with
  | c :: r => if isWhiteSpace c then c :: leading_ws r else []
  | [] => []
  end.

(** Tag normalization read as touching internal white space only: the runs
    inside the tag become hyphens, leading and trailing white space stays. *)
Definition hyphenate_internal (s : jstring) : jstring :=
  let rest := trimStart s in
  leading_ws s ++ replace_ws_runs (trimEnd rest) (lit "-") ++
  reverse (leading_ws (reverse rest)).

(** The same reading, with the leading and trailing white space dropped. *)
Definition hyphenate_trimmed (s : jstring) : jstring :=
  replace_ws_runs (trim s) (lit "-").

(** Stand-ins for the runtime in the examples: [toLowerCase] on strings of
    ASCII code units, a parser and a regular expression whose answers are
    given. *)
Definition ascii_toLowerCase (s : jstring) : jstring :=
  map (fun c => if ((65 <=? c) && (c <=? 90))%N then (c + 32)%N else c) s.

Definition parser_yielding (answer : json + jstring)
  : jstring -> json + jstring :=
  fun _ => answer.

Definition no_fence : jstring -> option (list (option jstring)) :=
  fun _ => None.

Definition plain_faults : runtime_fault -> jstring :=
  fun _ => lit "TypeError".

(** A response that carries the text [t] only. *)
Definition reply (t : jstring) : GenerateContentResponse := fragment t.

(** [s] between double quotes. *)
Definition quoted (s : string) : jstring := 34%N :: lit s ++ [34%N].

(** The JSON text of an object whose only member is [priority], the empty
    string. *)
Definition priority_empty_text : jstring :=
  lit "{" ++ quoted "priority" ++ lit ": " ++ [34%N; 34%N] ++ lit "}".

(** * The data model (src/types.ts) *)

Inductive Priority := Low | Medium | High.

Inductive Status := ToDo | InProgress | Done.

(** The string value of an enum member. *)
Definition Priority_value (p : Priority) : jstring :=
  match p with
  | Low => lit "Low"
  | Medium => lit "Medium"
  | High => lit "High"
  end.

(** [Task]; an optional field that is missing is [None]. *)
Record Task := {
  task_id : jstring;
  task_title : jstring;
  task_description : option jstring;
  task_dueDate : option jstring;
  task_priority : Priority;
  task_status : Status;
  task_tags : option (list jstring);
  task_createdAt : jstring;
  task_contextualSources : option (list ContextualSource)
}.

(** * The task form (src/components/TaskForm.tsx) *)

(** The arguments of the [onChunk] calls of a log, in call order. *)
Definition onChunk_calls (log : list context_event) : list jstring :=
  omap (fun e => match e with OnChunk c => Some c | OnSources _ => None end) log.

(** The [useState] cells of the form that its handlers read and write. A
    state setter is a field update; updates apply in call order. *)
Record form_state := {
  form_title : jstring;
  form_description : jstring;
  form_dueDate : jstring;
  form_priority : Priority;
  form_status : Status;
  form_tags : jstring;
  form_contextualSources : list ContextualSource;
  enhancementError : option jstring;
  tagsError : option jstring;
  subtasksError : option jstring;
  contextError : option jstring
}.

Definition setTitle (f : form_state) (v : jstring) : form_state :=
  {| form_title := v; form_description := form_description f;
     form_dueDate := form_dueDate f; form_priority := form_priority f;
     form_status := form_status f; form_tags := form_tags f;
     form_contextualSources := form_contextualSources f;
     enhancementError := enhancementError f; tagsError := tagsError f;
     subtasksError := subtasksError f; contextError := contextError f |}.

Definition setDescription (f : form_state) (v : jstring) : form_state :=
  {| form_title := form_title f; form_description := v;
     form_dueDate := form_dueDate f; form_priority := form_priority f;
     form_status := form_status f; form_tags := form_tags f;
     form_contextualSources := form_contextualSources f;
     enhancementError := enhancementError f; tagsError := tagsError f;
     subtasksError := subtasksError f; contextError := contextError f |}.

Definition setTags (f : form_state) (v : jstring) : form_state :=
  {| form_title := form_title f; form_description := form_description f;
     form_dueDate := form_dueDate f; form_priority := form_priority f;
     form_status := form_status f; form_tags := v;
     form_contextualSources := form_contextualSources f;
     enhancementError := enhancementError f; tagsError := tagsError f;
     subtasksError := subtasksError f; contextError := contextError f |}.

Definition setContextualSources (f : form_state)
  (v : list ContextualSource) : form_state :=
  {| form_title := form_title f; form_description := form_description f;
     form_dueDate := form_dueDate f; form_priority := form_priority f;
     form_status := form_status f; form_tags := form_tags f;
     form_contextualSources := v;
     enhancementError := enhancementError f; tagsError := tagsError f;
     subtasksError := subtasksError f; contextError := contextError f |}.

Definition setEnhancementError (f : form_state) (v : option jstring)
  : form_state :=
  {| form_title := form_title f; form_description := form_description f;
     form_dueDate := form_dueDate f; form_priority := form_priority f;
     form_status := form_status f; form_tags := form_tags f;
     form_contextualSources := form_contextualSources f;
     enhancementError := v; tagsError := tagsError f;
     subtasksError := subtasksError f; contextError := contextError f |}.

Definition setTagsError (f : form_state) (v : option jstring) : form_state :=
  {| form_title := form_title f; form_description := form_description f;
     form_dueDate := form_dueDate f; form_priority := form_priority f;
     form_status := form_status f; form_tags := form_tags f;
     form_contextualSources := form_contextualSources f;
     enhancementError := enhancementError f; tagsError := v;
     subtasksError := subtasksError f; contextError := contextError f |}.

Definition setSubtasksError (f : form_state) (v : option jstring)
  : form_state :=
  {| form_title := form_title f; form_description := form_description f;
     form_dueDate := form_dueDate f; form_priority := form_priority f;
     form_status := form_status f; form_tags := form_tags f;
     form_contextualSources := form_contextualSources f;
     enhancementError := enhancementError f; tagsError := tagsError f;
     subtasksError := v; contextError := contextError f |}.

Definition setContextError (f : form_state) (v : option jstring)
  : form_state :=
  {| form_title := form_title f; form_description := form_description f;
     form_dueDate := form_dueDate f; form_priority := form_priority f;
     form_status := form_status f; form_tags := form_tags f;
     form_contextualSources := form_contextualSources f;
     enhancementError := enhancementError f; tagsError := tagsError f;
     subtasksError := subtasksError f; contextError := v |}.

(** [error instanceof Error ? error.message : fallback] *)
Definition message_or (fallback : jstring) (error : thrown) : jstring :=
  if instanceofError error then message_of error else fallback.

(** The two callbacks [handleAiEnhance] passes. *)
Definition enhance_callback (f : form_state) (e : enhance_event) : form_state :=
  match e with
  | OnTitleCandidate newTitleCandidate => setTitle f newTitleCandidate
  | OnDescriptionCandidate newDescriptionCandidate =>
      setDescription f newDescriptionCandidate
  end.

(** [handleAiEnhance]: clears its error, runs the splitter on the current
    fields with the two setters, and on failure shows the message. *)
Definition handleAiEnhance (API_KEY : option jstring) (f : form_state)
  (outcome : stream_outcome) : form_state :=
  let '(log, settled) :=
    enhanceTaskWithAIStream API_KEY (form_title f) (form_description f)
      outcome in
  let f1 := foldl enhance_callback (setEnhancementError f None) log in
  match settled with
  | Return _ => f1
  | Throw error =>
      setEnhancementError f1
        (Some (message_or (lit "AI enhancement failed.") error))
  end.

(** [prev.endsWith('\n')] *)
Definition endsWith_LF (s : jstring) : bool :=
  match last s with
  | Some c => (c =? LF)%N
  | None => false
  end.

(** [(prev.endsWith('\n') || prev === '' ? '' : '\n')] *)
Definition separator_after (prev : jstring) : jstring :=
  if endsWith_LF prev || negb (truthy prev) then [] else [LF].

(** The chunk callback of [handleSuggestSubtasks] and [handleFetchContext],
    with its [firstChunk] flag: the first chunk goes on a line of its own,
    the later ones are appended. The state is the flag and the form. *)
Definition append_chunk (st : bool * form_state) (chunk : jstring)
  : bool * form_state :=
  let '(firstChunk, f) := st in
  let prev := form_description f in
  if firstChunk
  then (false, setDescription f (prev ++ separator_after prev ++ chunk))
  else (firstChunk, setDescription f (prev ++ chunk)).

Definition handleSuggestSubtasks (API_KEY : option jstring) (f : form_state)
  (outcome : stream_outcome) : form_state :=
  let '(log, settled) := streamSubTasksWithAI API_KEY outcome in
  let f1 := (foldl append_chunk (true, setSubtasksError f None) log).2 in
  match settled with
  | Return _ => f1
  | Throw error =>
      setSubtasksError f1
        (Some (message_or (lit "AI sub-task suggestion failed.") error))
  end.

(** The two callbacks of [handleFetchContext]. *)
Definition context_callback (st : bool * form_state) (e : context_event)
  : bool * form_state :=
  match e with
  | OnChunk chunk => append_chunk st chunk
  | OnSources sources => (st.1, setContextualSources st.2 sources)
  end.

(** [handleFetchContext]: the sources are cleared before the call. *)
Definition handleFetchContext (API_KEY : option jstring) (f : form_state)
  (outcome : stream_outcome) : form_state :=
  let '(log, settled) := streamContextualInfoWithAI API_KEY outcome in
  let f0 := setContextualSources (setContextError f None) [] in
  let f1 := (foldl context_callback (true, f0) log).2 in
  match settled with
  | Return _ => f1
  | Throw error =>
      setContextError f1 (Some (message_or (lit "AI context fetch failed.") error))
  end.

(** The argument of the last title callback of a log, and of the last
    description callback. *)
Definition last_title (log : list enhance_event) : option jstring :=
  last (omap (fun e => match e with
                       | OnTitleCandidate t => Some t
                       | OnDescriptionCandidate _ => None
                       end) log).

Definition last_description (log : list enhance_event) : option jstring :=
  last (omap (fun e => match e with
                       | OnDescriptionCandidate d => Some d
                       | OnTitleCandidate _ => None
                       end) log).

(** The description after the chunk callback has received the fragments
    [frs] on top of [d]. *)
Definition appended_description (d : jstring) (frs : list jstring) : jstring :=
  match frs with
  | [] => d
  | _ :: _ => d ++ separator_after d ++ concat frs
  end.

(** The sources of the candidates that pass the filter in the last chunk of
    a stream; none for a stream without chunks. *)
Definition last_chunk_sources (chunks : list GenerateContentResponse)
  : list ContextualSource :=
  match last chunks with
  | Some response => map to_source (passing_candidates response)
  | None => []
  end.

(** A blank form with a title and a description, for the examples. *)
Definition form_with (t d : jstring) : form_state :=
  {| form_title := t; form_description := d; form_dueDate := [];
     form_priority := Medium; form_status := ToDo; form_tags := [];
     form_contextualSources := []; enhancementError := None;
     tagsError := None; subtasksError := None; contextError := None |}.

(** ** The tags field and the submission *)

(** The comma, the separator of [tags.split(',')]. *)
Definition COMMA : code_unit := 44%N.

(** [s.split(sep)] for a one-unit separator: the pieces between the
    occurrences of [sep]; the empty string gives one empty piece. *)
Fixpoint split (s : jstring) (sep : code_unit) : list jstring :=
  match s with
  | [] => [[]]
  | c :: r =>
      if (c =? sep)%N then [] :: split r sep
      else
        match split r sep with
        | piece :: pieces => (c :: piece) :: pieces
        | [] => [[c]]
        end
  end.

(** [l.join(sep)] on an array of strings. *)
Fixpoint join (l : list jstring) (sep : jstring) : jstring :=
  match l with
  | [] => []
  | [x] => x
  | x :: r => x ++ sep ++ join r sep
  end.

(** [l.includes(s)] on an array of strings. *)
Definition includes (l : list jstring) (s : jstring) : bool :=
  existsb (jstring_eqb s) l.

(** What [handleSubmit] hands to [onSubmit]. *)
Record task_data := {
  td_id : option jstring;
  td_title : jstring;
  td_description : jstring;
  td_dueDate : jstring;
  td_priority : Priority;
  td_status : Status;
  td_tags : list jstring;
  td_contextualSources : list ContextualSource
}.

(** The branch of the form's effect for an existing [task]. *)
Definition form_of_task (task : Task) : form_state :=
  {| form_title := task_title task;
     form_description := or_else (task_description task) [];
     form_dueDate := or_else (task_dueDate task) [];
     form_priority := task_priority task;
     form_status := task_status task;
     form_tags :=
       match task_tags task with
       | Some l => let joined := join l (lit ", ") in
                   if truthy joined then joined else []
       | None => []
       end;
     form_contextualSources := default [] (task_contextualSources task);
     enhancementError := None; tagsError := None;
     subtasksError := None; contextError := None |}.

(** [existingTags] of [handleSuggestTags]: the trimmed, non-empty pieces of
    the tags field. *)
Definition existingTags (current : jstring) : list jstring :=
  List.filter truthy (map trim (split current COMMA)).

(** The updater [handleSuggestTags] hands to [setTags]. *)
Definition merge_tags (current : jstring) (suggested : list jstring)
  : jstring :=
  let newTags :=
    List.filter (fun s => negb (includes (existingTags current) s)) suggested in
  join (existingTags current ++ newTags) (lit ", ").

Section Form.

Variable API_KEY : option jstring.
Variable JSON_parse : jstring -> json + jstring.
Variable fenceRegex_match : jstring -> option (list (option jstring)).
Variable toLowerCase : jstring -> jstring.
Variable fault_message : runtime_fault -> jstring.

(** [finalTags] of [handleSubmit]. *)
Definition finalTags (tags : jstring) : list jstring :=
  List.filter truthy
    (map (fun tag => replace_ws_runs (toLowerCase (trim tag)) (lit "-"))
       (split tags COMMA)).

(** [handleSubmit] for the form opened on [task] ([None] for a new task):
    the form afterwards, and the argument of [onSubmit] when it is called. *)
Definition handleSubmit (task : option Task) (f : form_state)
  : form_state * option task_data :=
  if negb (truthy (trim (form_title f)))
  then (setEnhancementError f (Some (lit "Title is required.")), None)
  else
    (f,
     Some {| td_id := task_id <$> task;
             td_title := form_title f;
             td_description := form_description f;
             td_dueDate := form_dueDate f;
             td_priority := form_priority f;
             td_status := match task with
                          | Some _ => form_status f
                          | None => ToDo
                          end;
             td_tags := finalTags (form_tags f);
             td_contextualSources := form_contextualSources f |}).

Definition handleSuggestTags (f : form_state) (outcome : call_outcome)
  : form_state :=
  let f0 := setTagsError f None in
  match suggestTagsWithAI API_KEY JSON_parse fenceRegex_match toLowerCase
          fault_message outcome with
  | Return suggested => setTags f0 (merge_tags (form_tags f0) suggested)
  | Throw error =>
      setTagsError f0
        (Some (message_or (lit "AI tag suggestion failed.") error))
  end.

End Form.

(** A tag as the tags field can hold it and give it back: not empty,
    without a comma, without white space at either end. *)
Definition field_tag (t : jstring) : Prop :=
  t <> [] /\ (COMMA ∉ t) /\
  starts_with_ws t = false /\ ends_with_ws t = false.

(** A tag that [handleSubmit] gives back as it finds it: not empty,
    without a comma or white space, and in lower case already. *)
Definition saved_tag (toLowerCase : jstring -> jstring) (t : jstring) : Prop :=
  t <> [] /\ (COMMA ∉ t) /\
  forallb (fun c => negb (isWhiteSpace c)) t = true /\ toLowerCase t = t.

(** A task for the examples. *)
Definition report_task : Task :=
  {| task_id := lit "k3j9x0q1z";
     task_title := lit "Submit weekly report";
     task_description := None;
     task_dueDate := Some (lit "2025-07-01");
     task_priority := High;
     task_status := InProgress;
     task_tags := Some [lit "work"; lit "q3-report"];
     task_createdAt := lit "2025-06-01T09:00:00.000Z";
     task_contextualSources := None |}.

(** [aiSuggestion.priority || Priority.Medium], the value the form's
    effect hands to [setPriority] for a suggestion with the own properties
    [m]. *)
Definition suggested_priority (m : gmap jstring json) : json :=
  match m !! lit "priority" with
  | Some v => if json_truthy v then v else JStr (Priority_value Medium)
  | None => JStr (Priority_value Medium)
  end.

(** * The application (App.tsx) and its header (Header.tsx) *)

(** The [useState] cells of [App]. *)
Record app_state := {
  tasks : list Task;
  isModalOpen : bool;
  editingTask : option Task;
  aiSuggestedTask : option parsed_task;
  app_error : option jstring;
  isSubmitting : bool
}.

Definition openModalWithAISuggestion (s : app_state)
  (suggestion : parsed_task) : app_state :=
  {| tasks := tasks s; isModalOpen := true; editingTask := None;
     aiSuggestedTask := Some suggestion; app_error := None;
     isSubmitting := isSubmitting s |}.

Definition closeModal (s : app_state) : app_state :=
  {| tasks := tasks s; isModalOpen := false; editingTask := None;
     aiSuggestedTask := None; app_error := None;
     isSubmitting := isSubmitting s |}.

Definition setError (s : app_state) (v : option jstring) : app_state :=
  {| tasks := tasks s; isModalOpen := isModalOpen s;
     editingTask := editingTask s; aiSuggestedTask := aiSuggestedTask s;
     app_error := v; isSubmitting := isSubmitting s |}.

Definition setIsSubmitting (s : app_state) (v : bool) : app_state :=
  {| tasks := tasks s; isModalOpen := isModalOpen s;
     editingTask := editingTask s; aiSuggestedTask := aiSuggestedTask s;
     app_error := app_error s; isSubmitting := v |}.

Definition setTasks (s : app_state) (v : list Task) : app_state :=
  {| tasks := v; isModalOpen := isModalOpen s;
     editingTask := editingTask s; aiSuggestedTask := aiSuggestedTask s;
     app_error := app_error s; isSubmitting := isSubmitting s |}.

(** [{ ...t, ...dataToSave, id: dataToSave.id! }]: every field the form
    submits replaces the task's; [createdAt], which the form does not
    submit, stays. *)
Definition merge_task (t : Task) (dataToSave : task_data) (id : jstring)
  : Task :=
  {| task_id := id;
     task_title := td_title dataToSave;
     task_description := Some (td_description dataToSave);
     task_dueDate := Some (td_dueDate dataToSave);
     task_priority := td_priority dataToSave;
     task_status := td_status dataToSave;
     task_tags := Some (td_tags dataToSave);
     task_createdAt := task_createdAt t;
     task_contextualSources := Some (td_contextualSources dataToSave) |}.

(** [{ ...dataToSave, id: generateId(), createdAt: ..., status: Status.ToDo }] *)
Definition new_task (dataToSave : task_data) (id createdAt : jstring) : Task :=
  {| task_id := id;
     task_title := td_title dataToSave;
     task_description := Some (td_description dataToSave);
     task_dueDate := Some (td_dueDate dataToSave);
     task_priority := td_priority dataToSave;
     task_status := ToDo;
     task_tags := Some (td_tags dataToSave);
     task_createdAt := createdAt;
     task_contextualSources := Some (td_contextualSources dataToSave) |}.

(** [handleFormSubmit], on the data [handleSubmit] builds: the state once
    the timer callback has run, on the [tasks] the handler saw. What
    [generateId()] and [new Date().toISOString()] yield is given. *)
Definition handleFormSubmit (s : app_state) (taskData : task_data)
  (generated_id now : jstring) : app_state :=
  let s1 := setIsSubmitting (setError s None) true in
  let id := default [] (td_id taskData) in
  let s2 :=
    if truthy id
    then setTasks s1
           (map (fun t => if jstring_eqb (task_id t) id
                          then merge_task t taskData id else t)
              (tasks s))
    else setTasks s1 (new_task taskData generated_id now :: tasks s) in
  setIsSubmitting (closeModal s2) false.

(** [handleDeleteTask]; [confirmed] is the answer to [window.confirm]. *)
Definition handleDeleteTask (s : app_state) (taskId : jstring)
  (confirmed : bool) : app_state :=
  if confirmed
  then setTasks s
         (List.filter (fun t => negb (jstring_eqb (task_id t) taskId)) (tasks s))
  else s.

(** [{ ...t, status: newStatus }] *)
Definition with_status (t : Task) (newStatus : Status) : Task :=
  {| task_id := task_id t; task_title := task_title t;
     task_description := task_description t; task_dueDate := task_dueDate t;
     task_priority := task_priority t; task_status := newStatus;
     task_tags := task_tags t; task_createdAt := task_createdAt t;
     task_contextualSources := task_contextualSources t |}.

Definition handleStatusChange (s : app_state) (taskId : jstring)
  (newStatus : Status) : app_state :=
  setTasks s
    (map (fun t => if jstring_eqb (task_id t) taskId
                   then with_status t newStatus else t)
       (tasks s)).

(** ** The order of the cards *)

Definition statusOrder (st : Status) : Z :=
  match st with ToDo => 0 | InProgress => 1 | Done => 2 end.

Definition priorityOrder (p : Priority) : Z :=
  match p with High => 0 | Medium => 1 | Low => 2 end.

(** [Array.prototype.sort] with a comparator. The comparator yields a
    number, [None] standing for [NaN], which [sort] takes for [0]. The sort
    is stable; for a comparator that is a consistent ordering its result is
    the one stable sorted arrangement, which insertion computes. For a
    comparator that is not one (here: when it yields [NaN], on an invalid
    date) the language leaves the order to the engine; insertion then gives
    one of the orders the language permits, which need not be the engine's.
    The properties of [sortedTasks] are stated for valid dates only. *)
Definition is_positive (v : option Z) : bool :=
  match v with
  | Some z => 0 <? z
  | None => false
  end.

Fixpoint sort_insert {A} (comparefn : A -> A -> option Z) (x : A) (l : list A)
  : list A :=
  match l with
  | [] => [x]
  | y :: r =>
      if is_positive (comparefn x y) then y :: sort_insert comparefn x r
      else x :: l
  end.

Definition sort {A} (l : list A) (comparefn : A -> A -> option Z) : list A :=
  foldr (sort_insert comparefn) [] l.

Section Cards.

(** [new Date(s).getTime()]: the time value in milliseconds, [None] for an
    invalid date ([NaN]). *)
Variable Date_getTime : jstring -> option Z.

(** The comparator of [sortedTasks]. *)
Definition compare_tasks (a b : Task) : option Z :=
  if negb (statusOrder (task_status a) =? statusOrder (task_status b))
  then Some (statusOrder (task_status a) - statusOrder (task_status b))
  else if negb (priorityOrder (task_priority a) =?
                priorityOrder (task_priority b))
  then Some (priorityOrder (task_priority a) - priorityOrder (task_priority b))
  else
    match Date_getTime (task_createdAt b), Date_getTime (task_createdAt a) with
    | Some tb, Some ta => Some (tb - ta)
    | _, _ => None
    end.

Definition sortedTasks (s : app_state) : list Task :=
  sort (tasks s) compare_tasks.

(** [a] may stand before [b] on the board: an earlier status, or the same
    status and a higher priority, or the same of both and [a] created no
    earlier than [b]. *)
Definition stands_before (a b : Task) : Prop :=
  statusOrder (task_status a) < statusOrder (task_status b) \/
  statusOrder (task_status a) = statusOrder (task_status b) /\
  (priorityOrder (task_priority a) < priorityOrder (task_priority b) \/
   priorityOrder (task_priority a) = priorityOrder (task_priority b) /\
   exists ta tb,
     Date_getTime (task_createdAt a) = Some ta /\
     Date_getTime (task_createdAt b) = Some tb /\ tb <= ta).

(** A task whose creation date is valid. *)
Definition dated (t : Task) : Prop :=
  is_Some (Date_getTime (task_createdAt t)).

End Cards.

(** A clock for the examples: the time value of a date string is read off
    its first code unit. *)
Definition example_getTime (s : jstring) : option Z :=
  match s with
  | [] => None
  | c :: _ => Some (Z.of_N c)
  end.

(** A task for the examples with the given id, status, priority and first
    character of its creation date. *)
Definition card (id : string) (st : Status) (p : Priority) (created : string)
  : Task :=
  {| task_id := lit id;
     task_title := lit id;
     task_description := None;
     task_dueDate := None;
     task_priority := p;
     task_status := st;
     task_tags := None;
     task_createdAt := lit created;
     task_contextualSources := None |}.

(** A finished task for the examples, created after [report_task]. *)
Definition archived_task : Task :=
  {| task_id := lit "a1b2c3d4e";
     task_title := lit "Archive mail";
     task_description := None;
     task_dueDate := None;
     task_priority := Low;
     task_status := Done;
     task_tags := None;
     task_createdAt := lit "3025-06-01T09:00:00.000Z";
     task_contextualSources := None |}.

(** The message [handleAddTaskWithAi] shows for a caught value. *)
Definition ai_error_message (err : thrown) : jstring :=
  let message :=
    message_or (lit "An unknown error occurred with AI processing.") err in
  if startsWith message (lit "Failed to parse task with AI.")
  then message
  else lit "AI Error: " ++ message.

Section Application.

Variable API_KEY : option jstring.
Variable JSON_parse : jstring -> json + jstring.
Variable fenceRegex_match : jstring -> option (list (option jstring)).
Variable fault_message : runtime_fault -> jstring.

(** [handleAddTaskWithAi]. What [parseTaskStringWithAI] resolves to is an
    object, hence truthy: the [else] branch of [if (parsedTaskData)] has no
    case here. The handler catches whatever is thrown and does not throw
    again, so its promise is always fulfilled. *)
Definition handleAddTaskWithAi (s : app_state) (outcome : call_outcome)
  : app_state * result unit :=
  let s1 := setIsSubmitting (setError s None) true in
  let s2 :=
    match parseTaskStringWithAI API_KEY JSON_parse fenceRegex_match
            fault_message outcome with
    | Return parsedTaskData => openModalWithAISuggestion s1 parsedTaskData
    | Throw err => setError s1 (Some (ai_error_message err))
    end in
  (setIsSubmitting s2 false, Return tt).

(** The [useState] cells of [Header] that [handleAiSubmit] touches. *)
Record header_state := {
  nlpInput : jstring;
  isProcessingAi : bool
}.

(** [handleAiSubmit], with [onAddTaskWithAi] bound to [handleAddTaskWithAi]
    as [App] binds it: a blank input returns at once; otherwise the input is
    cleared when the awaited call is fulfilled and kept when it rejects. *)
Definition handleAiSubmit (s : app_state) (h : header_state)
  (outcome : call_outcome) : app_state * header_state :=
  if negb (truthy (trim (nlpInput h))) then (s, h)
  else
    let '(s', settled) := handleAddTaskWithAi s outcome in
    match settled with
    | Return _ => (s', {| nlpInput := []; isProcessingAi := false |})
    | Throw _ => (s', {| nlpInput := nlpInput h; isProcessingAi := false |})
    end.

End Application.


(** The citation candidates of a response: the [groundingChunks] of the
    metadata of its first candidate, none when one of these is missing. *)
Definition citation_candidates (response : GenerateContentResponse)
  : list groundingChunk :=
  match candidates response with
  | Some (c :: _) =>
      match cand_groundingMetadata c with
      | Some gm => default [] (groundingChunks gm)
      | None => []
      end
  | _ => []
  end.

(** * Properties *)

(** [c ∉ s] on a closed string, by evaluation. *)
Ltac solve_absent :=
  match goal with
  | |- ?c ∉ ?s =>
      let s' := eval vm_compute in s in
      change (c ∉ s'); apply (bool_decide_unpack (c ∉ s')); vm_compute; exact I
  end.

(** ** Facts about the string primitives *)

Section StringFacts.

Implicit Types (s pre post : jstring) (c : code_unit) (i : Z).

Lemma indexOf_from_absent c s i : c ∉ s -> indexOf_from c s i = -1.
Proof.
  revert i. induction s as [|x r IH]; intros i Hc; simpl; [reflexivity|].
  apply not_elem_of_cons in Hc as [Hx Hr].
  destruct (N.eqb_spec x c) as [->|_]; [contradiction|]. by apply IH.
Qed.

Lemma indexOf_from_first c pre post i :
  c ∉ pre -> indexOf_from c (pre ++ c :: post) i = i + Z.of_nat (length pre).
Proof.
  revert i. induction pre as [|x r IH]; intros i Hc; simpl.
  - rewrite N.eqb_refl. lia.
  - apply not_elem_of_cons in Hc as [Hx Hr].
    destruct (N.eqb_spec x c) as [->|_]; [contradiction|].
    rewrite IH by assumption. lia.
Qed.

Lemma indexOf_absent s c : c ∉ s -> indexOf s c = -1.
Proof. apply indexOf_from_absent. Qed.

Lemma indexOf_first c pre post :
  c ∉ pre -> indexOf (pre ++ c :: post) c = Z.of_nat (length pre).
Proof. intros H. unfold indexOf. by rewrite indexOf_from_first. Qed.

(** [indexOf] answers [-1] exactly when the unit does not occur. *)
Lemma indexOf_found s c :
  indexOf s c <> -1 ->
  exists pre post,
    s = pre ++ c :: post /\ (c ∉ pre) /\ indexOf s c = Z.of_nat (length pre).
Proof.
  intros H. destruct (decide (c ∈ s)) as [Hin|Hout].
  - apply list_elem_of_split_l in Hin as (pre & post & -> & Hpre).
    exists pre, post. by rewrite indexOf_first.
  - by rewrite indexOf_absent in H.
Qed.

Lemma substring_prefix pre post c :
  substring (pre ++ c :: post) 0 (Z.of_nat (length pre)) = pre.
Proof.
  unfold substring, clamp. rewrite length_app. simpl length.
  replace (Z.min (Z.max 0 0) _) with 0 by lia.
  replace (Z.min (Z.max (Z.of_nat (length pre)) 0) _)
    with (Z.of_nat (length pre)) by lia.
  replace (Z.min 0 _) with 0 by lia.
  replace (Z.max 0 _) with (Z.of_nat (length pre)) by lia.
  rewrite Z.sub_0_r, Nat2Z.id. simpl. apply take_app_length.
Qed.

Lemma substring_from_suffix pre post c :
  substring_from (pre ++ c :: post) (Z.of_nat (length pre) + 1) = post.
Proof.
  unfold substring_from, substring, clamp. rewrite length_app. simpl length.
  set (n := length pre). set (m := length post).
  replace (Z.min (Z.max (Z.of_nat n + 1) 0) _)
    with (Z.of_nat (S n)) by lia.
  replace (Z.min (Z.max (Z.of_nat (n + S m)) 0) _)
    with (Z.of_nat (n + S m)) by lia.
  replace (Z.min (Z.of_nat (S n)) _) with (Z.of_nat (S n)) by lia.
  replace (Z.max (Z.of_nat (S n)) _) with (Z.of_nat (n + S m)) by lia.
  rewrite Nat2Z.id.
  replace (S n) with (length (pre ++ [c])) by (rewrite length_app; simpl; lia).
  replace (pre ++ c :: post) with ((pre ++ [c]) ++ post)
    by (by rewrite <- app_assoc).
  rewrite drop_app_length. apply take_ge.
  rewrite length_app. simpl. lia.
Qed.

End StringFacts.

(** ** The splitter's loop *)

Lemma enhance_inv_init ct cd : enhance_inv (enhance_init ct cd).
Proof. split; reflexivity. Qed.

Lemma indexOf_app_found s t c :
  indexOf s c <> -1 -> indexOf (s ++ t) c = indexOf s c.
Proof.
  intros (pre & post & -> & Hpre & ->)%indexOf_found.
  rewrite <- app_assoc. simpl. by apply indexOf_first.
Qed.

Lemma enhance_absorb_text st f :
  accumulatedResponseText (enhance_absorb st f).1 =
  accumulatedResponseText st ++ f.
Proof.
  unfold enhance_absorb.
  destruct (firstNewlineIndex st =? -1); [|reflexivity].
  by destruct (negb _).
Qed.

Lemma enhance_absorb_inv st f :
  enhance_inv st -> enhance_inv (enhance_absorb st f).1.
Proof.
  intros [Hidx Hsent]. unfold enhance_inv.
  rewrite enhance_absorb_text. unfold enhance_absorb.
  destruct (Z.eqb_spec (firstNewlineIndex st) (-1)) as [Hnone|Hsome].
  - destruct (Z.eqb_spec (indexOf (accumulatedResponseText st ++ f) LF) (-1))
      as [Hn|Hn]; simpl; [|done].
    split; [done|]. rewrite Hsent, <- Hidx, Hnone. reflexivity.
  - simpl. rewrite Hidx in Hsome.
    rewrite (indexOf_app_found _ f _ Hsome). done.
Qed.

Lemma enhance_step_inv st chunk :
  enhance_inv st -> enhance_inv (enhance_step st chunk).1.
Proof.
  unfold enhance_step. destruct (text chunk); [apply enhance_absorb_inv|done].
Qed.

Lemma enhance_step_text st chunk :
  accumulatedResponseText (enhance_step st chunk).1 =
  accumulatedResponseText st ++ stream_text [chunk].
Proof.
  unfold enhance_step, stream_text. simpl. destruct (text chunk); simpl.
  - by rewrite enhance_absorb_text, app_nil_r.
  - by rewrite app_nil_r.
Qed.

Lemma stream_text_app l1 l2 :
  stream_text (l1 ++ l2) = stream_text l1 ++ stream_text l2.
Proof. unfold stream_text. by rewrite omap_app, concat_app. Qed.

Lemma enhance_loop_inv chunks st :
  enhance_inv st ->
  enhance_inv (enhance_loop st chunks).1 /\
  accumulatedResponseText (enhance_loop st chunks).1 =
  accumulatedResponseText st ++ stream_text chunks.
Proof.
  revert st. induction chunks as [|chunk rest IH]; intros st Hinv; simpl.
  - split; [done|]. by rewrite app_nil_r.
  - pose proof (enhance_step_inv st chunk Hinv) as H1.
    pose proof (enhance_step_text st chunk) as T1.
    destruct (enhance_step st chunk) as [st1 ev1]. simpl in *.
    destruct (IH st1 H1) as [H2 T2].
    destruct (enhance_loop st1 rest) as [st2 ev2]. simpl in *.
    split; [done|]. rewrite T2, T1, <- app_assoc.
    change (chunk :: rest) with ([chunk] ++ rest).
    by rewrite stream_text_app.
Qed.

Lemma enhance_loop_app st l1 l2 :
  enhance_loop st (l1 ++ l2) =
  let '(st1, ev1) := enhance_loop st l1 in
  let '(st2, ev2) := enhance_loop st1 l2 in
  (st2, ev1 ++ ev2).
Proof.
  revert st. induction l1 as [|chunk rest IH]; intros st; simpl.
  - by destruct (enhance_loop st l2).
  - destruct (enhance_step st chunk) as [st1 ev1]. rewrite IH.
    destruct (enhance_loop st1 rest) as [st2 ev2].
    destruct (enhance_loop st2 l2) as [st3 ev3]. by rewrite app_assoc.
Qed.

(** The pair the splitter returns, as a function of the whole text. *)
Lemma enhance_finish_details st :
  (LF ∉ accumulatedResponseText st ->
   (enhance_finish st).2 =
   {| refinedTitle := trim (accumulatedResponseText st);
      refinedDescription := [] |}) /\
  (forall pre post,
     accumulatedResponseText st = pre ++ LF :: post -> LF ∉ pre ->
     (enhance_finish st).2 =
     {| refinedTitle := trim pre; refinedDescription := trim post |}).
Proof.
  unfold enhance_finish. simpl. split.
  - intros H. by rewrite (indexOf_absent _ _ H).
  - intros pre post -> H. rewrite (indexOf_first _ _ _ H).
    destruct (Z.eqb_spec (Z.of_nat (length pre)) (-1)) as [Hneg|_]; [lia|].
    simpl. by rewrite substring_prefix, substring_from_suffix.
Qed.

Lemma enhance_returns API_KEY ct cd chunks :
  not_configured API_KEY = false ->
  enhanceTaskWithAIStream API_KEY ct cd (Stream chunks None) =
  ((enhance_loop (enhance_init ct cd) chunks).2 ++
   (enhance_finish (enhance_loop (enhance_init ct cd) chunks).1).1,
   Return (enhance_finish (enhance_loop (enhance_init ct cd) chunks).1).2).
Proof.
  intros Hkey. unfold enhanceTaskWithAIStream. rewrite Hkey.
  destruct (enhance_loop _ chunks) as [st ev]. cbn [fst snd].
  destruct (enhance_finish st) as [closing details]. reflexivity.
Qed.

Lemma enhance_loop_text ct cd chunks :
  accumulatedResponseText (enhance_loop (enhance_init ct cd) chunks).1 =
  stream_text chunks.
Proof.
  by destruct (enhance_loop_inv chunks _ (enhance_inv_init ct cd)) as [_ ->].
Qed.

(** C1. The pair returned by [enhanceTaskWithAIStream] depends only on the
    concatenation of the fragments: without a newline in it the body is
    empty and the title is the trimmed concatenation; with the first newline
    between [pre] and [post] the title is [trim pre] and the body is
    [trim post]; and two fragment sequences with the same concatenation
    (whatever the initial title and description) return the same pair. *)
Theorem enhance_result_of_concatenation API_KEY ct cd chunks :
  not_configured API_KEY = false ->
  let returned chunks ct cd :=
    (enhanceTaskWithAIStream API_KEY ct cd (Stream chunks None)).2 in
  (LF ∉ stream_text chunks ->
   returned chunks ct cd =
   Return {| refinedTitle := trim (stream_text chunks);
             refinedDescription := [] |}) /\
  (forall pre post,
     stream_text chunks = pre ++ LF :: post -> LF ∉ pre ->
     returned chunks ct cd =
     Return {| refinedTitle := trim pre; refinedDescription := trim post |}) /\
  (forall chunks' ct' cd',
     stream_text chunks' = stream_text chunks ->
     returned chunks' ct' cd' = returned chunks ct cd).
Proof.
  intros Hkey returned. subst returned. cbv beta.
  rewrite (enhance_returns _ ct cd chunks Hkey). cbn [snd].
  set (st := (enhance_loop (enhance_init ct cd) chunks).1).
  assert (Hacc : accumulatedResponseText st = stream_text chunks)
    by apply enhance_loop_text.
  destruct (enhance_finish_details st) as [Hnone Hsome].
  rewrite Hacc in Hnone, Hsome.
  split; [|split].
  - intros H. f_equal. by apply Hnone.
  - intros pre post Hsplit H. f_equal. by apply Hsome.
  - intros chunks' ct' cd' Heq.
    rewrite (enhance_returns _ ct' cd' chunks' Hkey). cbn [snd]. f_equal.
    unfold enhance_finish. cbn [snd]. subst st.
    by rewrite !enhance_loop_text, Heq.
Qed.

Lemma indexOf_present s c : c ∈ s <-> indexOf s c <> -1.
Proof.
  split.
  - intros (pre & post & -> & Hpre)%list_elem_of_split_l.
    rewrite indexOf_first by done. lia.
  - intros (pre & post & -> & _)%indexOf_found. set_solver.
Qed.

Lemma enhance_absorb_fired st f :
  enhance_inv st ->
  let acc := accumulatedResponseText st in
  let fired := (enhance_absorb st f).2 in
  (LF ∉ acc ++ f -> fired = [OnTitleCandidate (trim (acc ++ f))]) /\
  (forall pre post,
     LF ∉ acc -> acc ++ f = pre ++ LF :: post -> LF ∉ pre ->
     fired = [OnTitleCandidate (trim pre); OnDescriptionCandidate post]) /\
  (forall pre post,
     acc = pre ++ LF :: post -> LF ∉ pre ->
     fired = [OnDescriptionCandidate (post ++ f)]).
Proof.
  intros [Hidx _] acc fired. subst acc fired. unfold enhance_absorb.
  rewrite Hidx. split; [|split].
  - intros H. assert (LF ∉ accumulatedResponseText st) as H0
      by (intros ?; apply H; set_solver).
    by rewrite (indexOf_absent _ _ H0), (indexOf_absent _ _ H).
  - intros pre post H0 Hsplit Hpre.
    rewrite (indexOf_absent _ _ H0), Hsplit, (indexOf_first _ _ _ Hpre).
    cbn [Z.eqb Pos.eqb].
    destruct (Z.eqb_spec (Z.of_nat (length pre)) (-1)) as [Hneg|_]; [lia|].
    cbn [negb snd].
    by rewrite substring_prefix, substring_from_suffix.
  - intros pre post Hsplit Hpre.
    rewrite Hsplit, (indexOf_first _ _ _ Hpre).
    destruct (Z.eqb_spec (Z.of_nat (length pre)) (-1)) as [Hneg|_]; [lia|].
    cbn [snd]. rewrite <- app_assoc. simpl app.
    by rewrite substring_from_suffix.
Qed.

(** C2. Live callbacks of [enhanceTaskWithAIStream]. For a fragment [f]
    absorbed after the chunks [before], the callbacks fired for it sit in the
    session's log right after those of [before], and they are: the title alone
    (the whole trimmed accumulation) while the accumulation has no newline;
    the title (trimmed text before the newline) then the body (untrimmed text
    after it) on the fragment that brings the first newline; the body alone
    (untrimmed text after the first newline) on every later fragment. On the
    fragments ["Buy milk\n"; "Remember "; "the reusable bags."] the live
    callbacks are title ["Buy milk"] and the empty body, then body ["Remember "],
    then body ["Remember the reusable bags."]; the closing callbacks follow
    and the pair returned is ["Buy milk"], ["Remember the reusable bags."]. *)
Theorem enhance_live_callbacks API_KEY ct cd :
  not_configured API_KEY = false ->
  (forall before chunk f after,
     text chunk = Some f ->
     let st := (enhance_loop (enhance_init ct cd) before).1 in
     let acc := stream_text before in
     let fired := (enhance_step st chunk).2 in
     (exists later,
        (enhanceTaskWithAIStream API_KEY ct cd
           (Stream (before ++ chunk :: after) None)).1 =
        (enhance_loop (enhance_init ct cd) before).2 ++ fired ++ later) /\
     (LF ∉ acc ++ f -> fired = [OnTitleCandidate (trim (acc ++ f))]) /\
     (forall pre post,
        LF ∉ acc -> acc ++ f = pre ++ LF :: post -> LF ∉ pre ->
        fired = [OnTitleCandidate (trim pre); OnDescriptionCandidate post]) /\
     (forall pre post,
        acc = pre ++ LF :: post -> LF ∉ pre ->
        fired = [OnDescriptionCandidate (post ++ f)])) /\
  enhanceTaskWithAIStream API_KEY ct cd (Stream buy_milk None) =
  (([OnTitleCandidate (lit "Buy milk"); OnDescriptionCandidate []] ++
    [OnDescriptionCandidate (lit "Remember ")] ++
    [OnDescriptionCandidate (lit "Remember the reusable bags.")]) ++
   [OnTitleCandidate (lit "Buy milk");
    OnDescriptionCandidate (lit "Remember the reusable bags.")],
   Return {| refinedTitle := lit "Buy milk";
             refinedDescription := lit "Remember the reusable bags." |}).
Proof.
  intros Hkey. split.
  - intros before chunk f after Hf st acc fired.
    destruct (enhance_loop_inv before _ (enhance_inv_init ct cd))
      as [Hinv Hacc].
    fold st in Hinv, Hacc. simpl in Hacc. fold acc in Hacc.
    split.
    + rewrite (enhance_returns _ _ _ _ Hkey). cbn [fst].
      rewrite enhance_loop_app.
      destruct (enhance_loop (enhance_init ct cd) before) as [st0 ev0] eqn:E0.
      cbn [enhance_loop]. subst fired st. cbn [fst snd].
      destruct (enhance_step st0 chunk) as [st1 ev1]. cbn [snd].
      destruct (enhance_loop st1 after) as [st2 ev2]. cbn [fst snd].
      eexists. rewrite <- !app_assoc. reflexivity.
    + subst fired. unfold enhance_step. rewrite Hf, <- Hacc.
      by apply enhance_absorb_fired.
  - unfold enhanceTaskWithAIStream. rewrite Hkey. reflexivity.
Qed.

Lemma enhance_live_callbacks_witness :
  let st := (enhance_loop (enhance_init [] []) [fragment (lit "Buy milk" ++ [LF])]).1 in
  (enhance_step (enhance_init [] []) (fragment (lit "Buy milk" ++ [LF]))).2 =
    [OnTitleCandidate (lit "Buy milk"); OnDescriptionCandidate []] /\
  (enhance_step st (fragment (lit "Remember "))).2 =
    [OnDescriptionCandidate (lit "Remember ")] /\
  (enhance_step (enhance_init [] []) (fragment (lit "Buy"))).2 =
    [OnTitleCandidate (lit "Buy")] /\
  (enhanceTaskWithAIStream some_key [] [] (Stream buy_milk None)).2 =
    Return {| refinedTitle := lit "Buy milk";
              refinedDescription := lit "Remember the reusable bags." |}.
Proof.
  intros st. subst st.
  pose proof (enhance_live_callbacks some_key [] [] eq_refl) as [Hlive Hrun].
  split; [|split; [|split]].
  - destruct (Hlive [] (fragment (lit "Buy milk" ++ [LF])) _ [] eq_refl)
      as (_ & _ & Hfirst & _).
    apply (Hfirst (lit "Buy milk") []); [| reflexivity |]; solve_absent.
  - destruct (Hlive [fragment (lit "Buy milk" ++ [LF])]
                (fragment (lit "Remember ")) _ [] eq_refl)
      as (_ & _ & _ & Hlater).
    apply (Hlater (lit "Buy milk") []); [reflexivity | solve_absent].
  - destruct (Hlive [] (fragment (lit "Buy")) _ [] eq_refl) as (_ & Hnone & _).
    apply Hnone. solve_absent.
  - exact (f_equal snd Hrun).
Defined.

(** The three chunkings of ["abc\ndef"] given with the property. *)
Lemma enhance_result_of_concatenation_witness :
  let returned chunks :=
    (enhanceTaskWithAIStream some_key [] [] (Stream chunks None)).2 in
  let abc_def :=
    Return {| refinedTitle := lit "abc"; refinedDescription := lit "def" |} in
  returned [fragment (lit "ab"); fragment (lit "c" ++ LF :: lit "de");
            fragment (lit "f")] = abc_def /\
  returned [fragment (lit "ab"); fragment (lit "c" ++ [LF]);
            fragment (lit "de"); fragment (lit "f")] = abc_def /\
  returned [fragment (lit "abc" ++ LF :: lit "def")] = abc_def /\
  returned [fragment (lit " a"); fragment (lit "b ")] =
    Return {| refinedTitle := lit "ab"; refinedDescription := [] |}.
Proof.
  intros returned abc_def. split; [|split; [|split]].
  - apply (proj1 (proj2 (enhance_result_of_concatenation some_key [] [] _ eq_refl))
             (lit "abc") (lit "def")); [reflexivity | solve_absent].
  - apply (proj1 (proj2 (enhance_result_of_concatenation some_key [] [] _ eq_refl))
             (lit "abc") (lit "def")); [reflexivity | solve_absent].
  - apply (proj1 (proj2 (enhance_result_of_concatenation some_key [] [] _ eq_refl))
             (lit "abc") (lit "def")); [reflexivity | solve_absent].
  - apply (proj1 (enhance_result_of_concatenation some_key [] []
                      [fragment (lit " a"); fragment (lit "b ")] eq_refl)).
    solve_absent.
Defined.

(** ** The closing callbacks of the splitter *)

(** C3, as amended. When the fragment sequence completes, the log of the
    session is the live callbacks followed by the closing ones: the body
    callback always, with the finalized body, and before it the title
    callback with the finalized title when the title was sent at the
    discovery of the first newline (the text has a newline) or the finalized
    title is not empty. With no newline and an empty trimmed text the title
    callback is not called at completion. *)
Theorem enhance_closing_callbacks API_KEY ct cd chunks :
  not_configured API_KEY = false ->
  exists details,
    enhanceTaskWithAIStream API_KEY ct cd (Stream chunks None) =
    ((enhance_loop (enhance_init ct cd) chunks).2 ++
     (if bool_decide (LF ∈ stream_text chunks) || truthy (refinedTitle details)
      then [OnTitleCandidate (refinedTitle details)]
      else []) ++
     [OnDescriptionCandidate (refinedDescription details)],
     Return details).
Proof.
  intros Hkey. rewrite (enhance_returns _ _ _ _ Hkey).
  destruct (enhance_loop_inv chunks _ (enhance_inv_init ct cd))
    as [[_ Hsent] Hacc].
  set (st := (enhance_loop (enhance_init ct cd) chunks).1) in *.
  simpl in Hacc. exists (enhance_finish st).2. f_equal. f_equal.
  unfold enhance_finish. cbn [fst snd refinedTitle refinedDescription].
  rewrite Hsent, Hacc. f_equal.
  destruct (Z.eqb_spec (indexOf (stream_text chunks) LF) (-1)) as [Hno|Hyes].
  - rewrite bool_decide_eq_false_2 by (rewrite indexOf_present; tauto).
    reflexivity.
  - rewrite bool_decide_eq_true_2 by (by rewrite indexOf_present).
    reflexivity.
Qed.

Lemma enhance_closing_callbacks_witness :
  enhanceTaskWithAIStream some_key [] []
    (Stream [fragment (lit "  ")] None) =
  ([OnTitleCandidate []; OnDescriptionCandidate []],
   Return {| refinedTitle := []; refinedDescription := [] |}) /\
  enhanceTaskWithAIStream some_key [] []
    (Stream [fragment (lit " " ++ [LF])] None) =
  ([OnTitleCandidate []; OnDescriptionCandidate [];
    OnTitleCandidate []; OnDescriptionCandidate []],
   Return {| refinedTitle := []; refinedDescription := [] |}).
Proof.
  split.
  - destruct (enhance_closing_callbacks some_key [] []
                [fragment (lit "  ")] eq_refl) as [details H].
    rewrite H. pose proof (f_equal snd H) as Hd. cbn [snd] in Hd.
    injection Hd as <-. reflexivity.
  - destruct (enhance_closing_callbacks some_key [] []
                [fragment (lit " " ++ [LF])] eq_refl) as [details H].
    rewrite H. pose proof (f_equal snd H) as Hd. cbn [snd] in Hd.
    injection Hd as <-. reflexivity.
Defined.

(** C3 as stated fails: a session that delivers nothing ends with the body
    callback alone, so the title callback is not notified on every
    completion. *)
Lemma enhance_closing_title_not_always_sent :
  ~ (forall chunks, exists t d,
       (enhanceTaskWithAIStream some_key [] [] (Stream chunks None)).1 =
       (enhance_loop (enhance_init [] []) chunks).2 ++
       [OnTitleCandidate t; OnDescriptionCandidate d]).
Proof.
  intros H. destruct (H []) as (t & d & Heq). discriminate Heq.
Qed.

(** ** Source extraction *)

Lemma startsWith_prefix s p : startsWith s p = true <-> exists r, s = p ++ r.
Proof.
  revert s. induction p as [|y p IH]; intros s; simpl.
  - split; [eauto|done].
  - destruct s as [|x s].
    + split; [done|]. intros [r Hr]. discriminate Hr.
    + rewrite andb_true_iff, N.eqb_eq, IH. split.
      * intros [-> [r ->]]. eauto.
      * intros [r Hr]. injection Hr as -> ->. eauto.
Qed.

Lemma web_passes_iff web :
  web_passes web = true <->
  exists w u, web = Some w /\ web_uri w = Some u /\ u <> [] /\
              exists r, u = lit "http" ++ r.
Proof.
  unfold web_passes. split.
  - destruct web as [w|]; [|done]. destruct (web_uri w) as [u|] eqn:Hu; [|done].
    intros [Ht Hs]%andb_true_iff. exists w, u.
    apply startsWith_prefix in Hs. by destruct u.
  - intros (w & u & -> & -> & Hne & Hs). apply startsWith_prefix in Hs.
    rewrite Hs. by destruct u.
Qed.

Lemma extract_sources_filter_map gcs :
  extract_sources gcs =
  omap (fun gc => if web_passes (gc_web gc)
                  then Some (to_source (gc_web gc)) else None) gcs.
Proof.
  unfold extract_sources. induction gcs as [|gc gcs IH]; simpl; [done|].
  destruct (web_passes (gc_web gc)); simpl; by rewrite IH.
Qed.

(** C5, as amended. Source extraction keeps a candidate exactly when it has a
    web reference whose uri is present, not empty and begins with the four
    characters [http]; every uri with an [http:] or [https:] scheme is such a
    uri. The kept candidates are reported in their order, each as its uri
    with its title, the title being the uri when the candidate has no title
    (or an empty one). Of the two candidates [ftp://x] and [https://y] only
    the second is reported. *)
Theorem extract_sources_keeps gcs :
  (forall web,
     web_passes web = true <->
     exists w u, web = Some w /\ web_uri w = Some u /\ u <> [] /\
                 exists r, u = lit "http" ++ r) /\
  (forall web, spec_keeps web -> web_passes web = true) /\
  extract_sources gcs =
    omap (fun gc => if web_passes (gc_web gc)
                    then Some (to_source (gc_web gc)) else None) gcs /\
  (forall w u,
     web_uri w = Some u ->
     uri (to_source (Some w)) = u /\
     (web_title w = None -> title (to_source (Some w)) = u) /\
     (web_title w = Some [] -> title (to_source (Some w)) = u) /\
     (forall t, web_title w = Some t -> t <> [] ->
                title (to_source (Some w)) = t)) /\
  extract_sources [cite (lit "ftp://x"); cite (lit "https://y")] =
    [{| uri := lit "https://y"; title := lit "https://y" |}].
Proof.
  split; [|split; [|split; [|split]]].
  - apply web_passes_iff.
  - intros web (w & u & -> & Hu & Hne & Hs). apply web_passes_iff.
    exists w, u. repeat split; try done.
    unfold has_http_scheme in Hs. apply orb_true_iff in Hs as [Hs|Hs];
      apply startsWith_prefix in Hs as [r ->].
    + by exists (lit ":" ++ r).
    + by exists (lit "s:" ++ r).
  - apply extract_sources_filter_map.
  - intros w u Hu. unfold to_source. rewrite Hu. simpl. split; [done|].
    split; [by intros ->|]. split; [by intros ->|].
    intros t -> Ht. by destruct t.
  - reflexivity.
Qed.

Lemma extract_sources_keeps_witness :
  web_passes (gc_web (cite (lit "https://y"))) = true /\
  title (to_source (gc_web (cite (lit "https://y")))) = lit "https://y".
Proof.
  destruct (extract_sources_keeps []) as (_ & Hspec & _ & Hmap & _).
  split.
  - apply Hspec. exists {| web_uri := Some (lit "https://y"); web_title := None |},
      (lit "https://y"). repeat split; done.
  - apply (proj1 (proj2 (Hmap {| web_uri := Some (lit "https://y");
                                   web_title := None |}
                                (lit "https://y") eq_refl))).
    reflexivity.
Defined.

(** C5 as stated fails: the uri [httpx://y] does not begin with an HTTP(S)
    scheme, and the filter keeps it. *)
Lemma extract_sources_keeps_more_than_http_schemes :
  ~ (forall web, web_passes web = true <-> spec_keeps web).
Proof.
  intros H.
  destruct (proj1 (H (gc_web (cite (lit "httpx://y")))) eq_refl)
    as (w & u & Hw & Hu & _ & Hs).
  injection Hw as <-. injection Hu as <-. discriminate Hs.
Qed.

(** ** The [onSources] callback of streamContextualInfoWithAI *)

(** *** Callbacks that return normally *)

Lemma invoke_all_quiet throws log events :
  (forall log e, throws log e = None) ->
  invoke_all throws log events = (log ++ events, None).
Proof.
  intros Hquiet. revert log.
  induction events as [|e rest IH]; intros log; simpl.
  - by rewrite app_nil_r.
  - rewrite Hquiet, IH. by rewrite <- app_assoc.
Qed.

Lemma context_loop_on_quiet throws chunks st log :
  (forall log e, throws log e = None) ->
  context_loop_on throws st log chunks =
  ((context_loop st chunks).1, log ++ (context_loop st chunks).2, None).
Proof.
  intros Hquiet. revert st log.
  induction chunks as [|chunk rest IH]; intros st log.
  - simpl. by rewrite app_nil_r.
  - cbn [context_loop_on context_loop]. unfold context_step.
    destruct (text chunk) as [t|]; rewrite ?Hquiet, IH;
      destruct (context_loop _ rest) as [st2 ev2]; cbn [fst snd];
      by rewrite <- ?app_assoc.
Qed.

Lemma invoke_all_returning log events :
  invoke_all returning log events = (log ++ events, None).
Proof. by apply invoke_all_quiet. Qed.

Lemma context_loop_on_returning chunks st log :
  context_loop_on returning st log chunks =
  ((context_loop st chunks).1, log ++ (context_loop st chunks).2, None).
Proof. by apply context_loop_on_quiet. Qed.

(** Callbacks that never throw are as good as [returning]. *)
Lemma streamContextualInfoWithAI_on_quiet API_KEY throws outcome :
  (forall log e, throws log e = None) ->
  streamContextualInfoWithAI_on API_KEY throws outcome =
  streamContextualInfoWithAI API_KEY outcome.
Proof.
  intros Hquiet.
  unfold streamContextualInfoWithAI, streamContextualInfoWithAI_on.
  destruct (not_configured API_KEY); [done|].
  destruct outcome as [e|chunks failure].
  - unfold context_catch.
    by rewrite (invoke_all_quiet throws _ _ Hquiet), invoke_all_returning.
  - rewrite (context_loop_on_quiet throws _ _ _ Hquiet),
      context_loop_on_returning.
    unfold context_catch.
    by rewrite !(invoke_all_quiet throws _ _ Hquiet), !invoke_all_returning.
Qed.

(** With such callbacks the function is the loop followed by one of the two
    reports. *)
Lemma streamContextualInfoWithAI_returning API_KEY outcome :
  streamContextualInfoWithAI API_KEY outcome =
  if not_configured API_KEY then ([], Throw API_KEY_missing)
  else
    match outcome with
    | StreamCallThrows e => (salvage_sources None, Throw e)
    | Stream chunks failure =>
        let '(st, events) :=
          context_loop
            {| accumulatedText := []; finalApiResponse := None |} chunks in
        match failure with
        | Some e => (events ++ salvage_sources (finalApiResponse st), Throw e)
        | None =>
            (events ++ report_sources (finalApiResponse st),
             Return (accumulatedText st))
        end
    end.
Proof.
  unfold streamContextualInfoWithAI, streamContextualInfoWithAI_on.
  destruct (not_configured API_KEY); [done|].
  destruct outcome as [e|chunks failure]; [done|].
  rewrite context_loop_on_returning.
  destruct (context_loop _ chunks) as [st events]. cbn [fst snd].
  unfold context_catch. rewrite !invoke_all_returning. rewrite !app_nil_l.
  by destruct failure.
Qed.

Lemma context_loop_silent chunks st :
  onSources_calls (context_loop st chunks).2 = [].
Proof.
  revert st. induction chunks as [|chunk rest IH]; intros st; simpl; [done|].
  pose proof (IH (context_step st chunk).1) as Hrest.
  unfold context_step in *. destruct (text chunk); simpl in *;
    destruct (context_loop _ rest) as [st2 ev2]; simpl in *; exact Hrest.
Qed.

Lemma context_step_retains st chunk :
  finalApiResponse (context_step st chunk).1 = Some chunk.
Proof. unfold context_step. by destruct (text chunk). Qed.

Lemma context_loop_retains chunks st :
  finalApiResponse (context_loop st chunks).1 =
  match last chunks with
  | Some response => Some response
  | None => finalApiResponse st
  end.
Proof.
  revert st. induction chunks as [|chunk rest IH]; intros st; [done|].
  cbn [context_loop].
  pose proof (IH (context_step st chunk).1) as Hrest.
  pose proof (context_step_retains st chunk) as Hstep.
  destruct (context_step st chunk) as [st1 ev1]. cbn [fst] in *.
  destruct (context_loop st1 rest) as [st2 ev2]. cbn [fst] in *.
  rewrite Hrest, Hstep. destruct rest as [|c rest']; [done|].
  change (last (chunk :: c :: rest')) with (last (c :: rest')).
  destruct (last (c :: rest')) eqn:Hlast; [done|].
  apply last_None in Hlast. discriminate Hlast.
Qed.

Lemma onSources_calls_app l1 l2 :
  onSources_calls (l1 ++ l2) = onSources_calls l1 ++ onSources_calls l2.
Proof. apply omap_app. Qed.

Lemma context_success_log API_KEY chunks :
  not_configured API_KEY = false ->
  onSources_calls (streamContextualInfoWithAI API_KEY (Stream chunks None)).1 =
  onSources_calls (report_sources (last chunks)).
Proof.
  intros Hkey. rewrite streamContextualInfoWithAI_returning, Hkey.
  pose proof (context_loop_silent chunks
                {| accumulatedText := []; finalApiResponse := None |}) as Hs.
  pose proof (context_loop_retains chunks
                {| accumulatedText := []; finalApiResponse := None |}) as Hr.
  destruct (context_loop _ chunks) as [st ev]. simpl in *.
  rewrite onSources_calls_app, Hs, Hr. simpl. by destruct (last chunks).
Qed.

(** C4, as amended. A session of [streamContextualInfoWithAI] that completes
    after at least one chunk calls [onSources] exactly once, as its last
    callback, with the sources of the candidates of the last chunk that pass
    the filter: the empty list when that chunk has no citation metadata or
    no passing candidate. A session that completes without any chunk does
    not call [onSources]. *)
Theorem context_sources_on_completion API_KEY chunks :
  not_configured API_KEY = false ->
  let log := (streamContextualInfoWithAI API_KEY (Stream chunks None)).1 in
  match last chunks with
  | Some response =>
      onSources_calls log = [map to_source (passing_candidates response)] /\
      last log = Some (OnSources (map to_source (passing_candidates response))) /\
      (passing_candidates response = [] -> onSources_calls log = [[]])
  | None => chunks = [] /\ log = []
  end.
Proof.
  intros Hkey log.
  pose proof (context_success_log API_KEY chunks Hkey) as Hcalls. fold log in Hcalls.
  destruct (last chunks) as [response|] eqn:Hlast.
  - assert (report_sources (Some response) =
            [OnSources (map to_source (passing_candidates response))]) as Hrep.
    { unfold report_sources, passing_candidates.
      by destruct (cited_chunks response). }
    rewrite Hrep in Hcalls. simpl in Hcalls. split; [done|]. split.
    + subst log. rewrite streamContextualInfoWithAI_returning, Hkey.
      pose proof (context_loop_retains chunks
                    {| accumulatedText := []; finalApiResponse := None |}) as Hr.
      destruct (context_loop _ chunks) as [st ev]. cbn [fst snd] in *.
      rewrite Hr, Hlast, Hrep. apply last_snoc.
    + intros Hnone. by rewrite Hcalls, Hnone.
  - apply last_None in Hlast. subst chunks. split; [done|].
    subst log. by rewrite streamContextualInfoWithAI_returning, Hkey.
Qed.

Lemma context_sources_on_completion_witness :
  onSources_calls
    (streamContextualInfoWithAI some_key
       (Stream [fragment (lit "a");
                cited_fragment (lit "b")
                  [cite (lit "ftp://x"); cite (lit "https://y")]] None)).1 =
  [[{| uri := lit "https://y"; title := lit "https://y" |}]] /\
  onSources_calls
    (streamContextualInfoWithAI some_key
       (Stream [fragment (lit "a")] None)).1 = [[]].
Proof.
  split.
  - exact (proj1 (context_sources_on_completion some_key
                    [fragment (lit "a");
                     cited_fragment (lit "b")
                       [cite (lit "ftp://x"); cite (lit "https://y")]]
                    eq_refl)).
  - exact (proj2 (proj2 (context_sources_on_completion some_key
                           [fragment (lit "a")] eq_refl)) eq_refl).
Defined.

(** C4 as stated fails: a session that completes without a chunk retains no
    response, and [onSources] is not called. *)
Lemma context_no_chunk_no_sources :
  ~ (forall chunks,
       length (onSources_calls
                 (streamContextualInfoWithAI some_key (Stream chunks None)).1)
       = 1%nat).
Proof. intros H. specialize (H []). discriminate H. Qed.

(** *** Callbacks that may throw *)









(** ** White-space runs *)

Lemma replace_ws_runs_aux_clean r b s :
  forallb (fun c => negb (isWhiteSpace c)) s = true ->
  replace_ws_runs_aux r b s = s.
Proof.
  revert b. induction s as [|c s IH]; intros b H; simpl in *; [done|].
  apply andb_true_iff in H as [Hc Hs].
  destruct (isWhiteSpace c); [done|]. by rewrite IH.
Qed.

(** After a run has begun, the rest of the run adds nothing. *)
Lemma replace_ws_runs_aux_inside r ws b :
  forallb isWhiteSpace ws = true -> starts_with_ws b = false ->
  replace_ws_runs_aux r true (ws ++ b) = replace_ws_runs_aux r false b.
Proof.
  intros Hws Hb. induction ws as [|c ws IH]; simpl in *.
  - destruct b as [|c b]; simpl in *; [done|]. by rewrite Hb.
  - apply andb_true_iff in Hws as [-> Hws]. simpl. by apply IH.
Qed.

Lemma replace_ws_runs_aux_run r ws b :
  ws <> [] -> forallb isWhiteSpace ws = true -> starts_with_ws b = false ->
  replace_ws_runs_aux r false (ws ++ b) = r ++ replace_ws_runs_aux r false b.
Proof.
  intros Hne Hws Hb. destruct ws as [|c ws]; [done|]. simpl in *.
  apply andb_true_iff in Hws as [-> Hws].
  by rewrite replace_ws_runs_aux_inside.
Qed.

Lemma replace_ws_runs_aux_app r flag a rest :
  ends_with_ws a = false -> a <> [] ->
  replace_ws_runs_aux r flag (a ++ rest) =
  replace_ws_runs_aux r flag a ++ replace_ws_runs_aux r false rest.
Proof.
  unfold ends_with_ws.
  revert flag. induction a as [|c a IH]; intros flag Hlast Hne; [done|].
  destruct a as [|c' a'].
  - simpl in *. by rewrite Hlast.
  - change (last (c :: c' :: a')) with (last (c' :: a')) in Hlast.
    simpl app. cbn [replace_ws_runs_aux].
    destruct (isWhiteSpace c).
    + rewrite <- app_assoc. f_equal. by apply (IH true).
    + simpl app. f_equal. by apply (IH false).
Qed.

(** Every maximal run of white space, wherever it stands, becomes one
    replacement: [a] is empty or does not end in white space, [b] is empty or
    does not begin with white space. *)
Lemma replace_ws_runs_run r a ws b :
  ws <> [] -> forallb isWhiteSpace ws = true ->
  ends_with_ws a = false -> starts_with_ws b = false ->
  replace_ws_runs (a ++ ws ++ b) r =
  replace_ws_runs a r ++ r ++ replace_ws_runs b r.
Proof.
  intros Hne Hws Ha Hb. unfold replace_ws_runs.
  destruct a as [|c a].
  - simpl app. by apply replace_ws_runs_aux_run.
  - rewrite replace_ws_runs_aux_app by done. f_equal.
    by apply replace_ws_runs_aux_run.
Qed.

(** ** parseTaskStringWithAI *)

Lemma priority_is_not_tags : lit "tags" <> lit "priority".
Proof. discriminate. Qed.

(** What the two coercions guarantee: [tags] is an array afterwards; a
    truthy [priority] ends as one of the three literals or as [null]; a
    falsy one (absent, [null], [0], the empty string, [false]) is left as it
    is. *)
Lemma coerce_properties_spec (m : gmap jstring json) :
  isArray (coerce_properties m !! lit "tags") = true /\
  (prop_truthy (m !! lit "priority") = true ->
   coerce_properties m !! lit "priority" = Some JNull \/
   exists s, s ∈ priority_literals /\
             coerce_properties m !! lit "priority" = Some (JStr s)) /\
  (prop_truthy (m !! lit "priority") = false ->
   coerce_properties m !! lit "priority" = m !! lit "priority").
Proof.
  unfold coerce_properties.
  set (m1 := if prop_truthy (m !! lit "priority") then _ else m).
  assert (Htags :
    forall m1 : gmap jstring json,
      isArray ((if negb (prop_truthy (m1 !! lit "tags")) ||
                   negb (isArray (m1 !! lit "tags"))
                then <[lit "tags" := JArr []]> m1 else m1) !! lit "tags") = true).
  { intros m'. destruct (isArray (m' !! lit "tags")) eqn:Harr.
    - destruct (m' !! lit "tags") as [[]|] eqn:Hl; try discriminate Harr.
      simpl. by rewrite Hl.
    - rewrite orb_true_r. by rewrite lookup_insert_eq. }
  assert (Hprio :
    forall m1 : gmap jstring json,
      (if negb (prop_truthy (m1 !! lit "tags")) ||
          negb (isArray (m1 !! lit "tags"))
       then <[lit "tags" := JArr []]> m1 else m1) !! lit "priority" =
      m1 !! lit "priority").
  { intros m'. destruct (_ || _); [|done].
    by rewrite lookup_insert_ne by apply priority_is_not_tags. }
  split; [apply Htags|]. rewrite Hprio. subst m1. split.
  - intros Ht. rewrite Ht. destruct (m !! lit "priority") as [prio|] eqn:Hp;
      [|discriminate Ht].
    destruct (includes_priority prio) eqn:Hinc; rewrite lookup_insert_eq.
    + right. destruct prio as [| | |s| |]; try discriminate Hinc.
      exists s. split; [|done]. unfold includes_priority in Hinc.
      apply existsb_exists in Hinc as (x & Hx & Heq).
      apply bool_decide_eq_true in Heq as ->. by apply list_elem_of_In.
    + by left.
  - by intros ->.
Qed.

Lemma parseTask_on_response
  API_KEY JSON_parse fenceRegex_match fault_message response :
  not_configured API_KEY = false ->
  parseTaskStringWithAI API_KEY JSON_parse fenceRegex_match fault_message
    (CallReturns response) =
  match parse_response JSON_parse fenceRegex_match fault_message response with
  | Return parsedData =>
      match coerce_parsed fault_message parsedData with
      | Return task => Return task
      | Throw e => Throw (parse_failure e)
      end
  | Throw e => Throw (parse_failure e)
  end.
Proof.
  intros Hkey. unfold parseTaskStringWithAI. rewrite Hkey.
  by destruct (parse_response _ _ _ response).
Qed.

(** C6, on the code. For a response whose text parses as a JSON object,
    [parseTaskStringWithAI] returns that object with [tags] an array, with a
    truthy [priority] coerced to one of the three literals or to [null], and
    with a falsy [priority] returned as it was parsed: the empty string, [0]
    and [false] come back unchanged, neither a literal nor absent. *)
Theorem parse_coercions
  API_KEY JSON_parse fenceRegex_match fault_message response m :
  not_configured API_KEY = false ->
  parse_response JSON_parse fenceRegex_match fault_message response =
    Return (JObj m) ->
  exists m',
    parseTaskStringWithAI API_KEY JSON_parse fenceRegex_match fault_message
      (CallReturns response) = Return (TaskObject m') /\
    isArray (m' !! lit "tags") = true /\
    (prop_truthy (m !! lit "priority") = true ->
     m' !! lit "priority" = Some JNull \/
     exists s, s ∈ priority_literals /\ m' !! lit "priority" = Some (JStr s)) /\
    (forall prio,
       m !! lit "priority" = Some prio -> json_truthy prio = false ->
       m' !! lit "priority" = Some prio).
Proof.
  intros Hkey Hparse. exists (coerce_properties m).
  rewrite (parseTask_on_response _ _ _ _ _ Hkey), Hparse. simpl.
  destruct (coerce_properties_spec m) as (Htags & Htruthy & Hfalsy).
  repeat split; try done.
  intros prio Hp Hf. rewrite Hfalsy; [done|]. by rewrite Hp.
Qed.

(** The response whose text is the object with an empty [priority]: the
    returned priority is the empty string. *)
Lemma parse_coercions_witness :
  let parse :=
    parser_yielding (inl (JObj {[ lit "priority" := JStr [] ]})) in
  exists m',
    parseTaskStringWithAI some_key parse no_fence plain_faults
      (CallReturns (reply priority_empty_text)) =
      Return (TaskObject m') /\
    m' !! lit "priority" = Some (JStr []) /\
    isArray (m' !! lit "tags") = true.
Proof.
  intros parse.
  destruct (parse_coercions some_key parse no_fence plain_faults
              (reply priority_empty_text)
              {[ lit "priority" := JStr [] ]} eq_refl eq_refl)
    as (m' & Hrun & Htags & _ & Hfalsy).
  exists m'. split; [exact Hrun|]. split; [|exact Htags].
  apply Hfalsy; reflexivity.
Defined.

(** ** suggestTagsWithAI *)

Lemma suggestTags_on_response
  API_KEY JSON_parse fenceRegex_match toLowerCase fault_message response :
  not_configured API_KEY = false ->
  suggestTagsWithAI API_KEY JSON_parse fenceRegex_match toLowerCase
    fault_message (CallReturns response) =
  match parse_response JSON_parse fenceRegex_match fault_message response with
  | Return parsedTags => Return (tags_of_parsed toLowerCase parsedTags)
  | Throw _ => Throw suggest_failure
  end.
Proof. intros Hkey. unfold suggestTagsWithAI. by rewrite Hkey. Qed.

Lemma tags_of_string_array toLowerCase tags :
  tags_of_parsed toLowerCase (JArr (map JStr tags)) =
  map (normalize_tag toLowerCase) tags.
Proof.
  unfold tags_of_parsed.
  replace (forallb isString (map JStr tags)) with true.
  - rewrite map_map. reflexivity.
  - symmetry. apply forallb_forall. intros v Hv.
    apply in_map_iff in Hv as (s & <- & _). reflexivity.
Qed.

(** C7, as amended. On a response that parses as an array of strings,
    [suggestTagsWithAI] returns, position by position, each element put in
    lower case and then with every maximal run of white space replaced by
    one hyphen: a run at the start or at the end of the tag as well as one
    inside it; a tag without white space is only put in lower case. *)
Theorem suggest_tags_normalization
  API_KEY JSON_parse fenceRegex_match toLowerCase fault_message response tags :
  not_configured API_KEY = false ->
  parse_response JSON_parse fenceRegex_match fault_message response =
    Return (JArr (map JStr tags)) ->
  suggestTagsWithAI API_KEY JSON_parse fenceRegex_match toLowerCase
    fault_message (CallReturns response) =
    Return (map (fun tag => replace_ws_runs (toLowerCase tag) (lit "-")) tags) /\
  (forall a ws b,
     ws <> [] -> forallb isWhiteSpace ws = true ->
     ends_with_ws a = false -> starts_with_ws b = false ->
     replace_ws_runs (a ++ ws ++ b) (lit "-") =
     replace_ws_runs a (lit "-") ++ lit "-" ++ replace_ws_runs b (lit "-")) /\
  (forall s,
     forallb (fun c => negb (isWhiteSpace c)) s = true ->
     replace_ws_runs s (lit "-") = s).
Proof.
  intros Hkey Hparse. split; [|split].
  - rewrite (suggestTags_on_response _ _ _ _ _ _ Hkey), Hparse.
    by rewrite tags_of_string_array.
  - intros a ws b. apply replace_ws_runs_run.
  - intros s. apply replace_ws_runs_aux_clean.
Qed.

Lemma suggest_tags_normalization_witness :
  suggestTagsWithAI some_key
    (parser_yielding (inl (JArr [JStr (lit " Big  Report "); JStr (lit "Q3")])))
    no_fence ascii_toLowerCase plain_faults
    (CallReturns (reply (lit "[...]"))) =
  Return [lit "-big-report-"; lit "q3"] /\
  replace_ws_runs (lit "big" ++ lit "  " ++ lit "report") (lit "-") =
  lit "big-report".
Proof.
  split.
  - exact (proj1 (suggest_tags_normalization some_key
                    (parser_yielding
                       (inl (JArr [JStr (lit " Big  Report "); JStr (lit "Q3")])))
                    no_fence ascii_toLowerCase plain_faults
                    (reply (lit "[...]")) [lit " Big  Report "; lit "Q3"]
                    eq_refl eq_refl)).
  - exact (proj1 (proj2 (suggest_tags_normalization some_key
                    (parser_yielding (inl (JArr [])))
                    no_fence ascii_toLowerCase plain_faults
                    (reply (lit "[]")) [] eq_refl eq_refl))
             (lit "big") (lit "  ") (lit "report")
             ltac:(discriminate) eq_refl eq_refl eq_refl).
Defined.

(** C7 as stated fails: the white space before [a] in the tag [ a] is not
    internal, and it comes back as a hyphen; the result is neither the tag
    with its outer white space kept nor the tag with it dropped. *)
Lemma suggest_tags_hyphenate_outer_space :
  ~ (forall tags,
       tags_of_parsed ascii_toLowerCase (JArr (map JStr tags)) =
       map (fun tag => hyphenate_internal (ascii_toLowerCase tag)) tags) /\
  ~ (forall tags,
       tags_of_parsed ascii_toLowerCase (JArr (map JStr tags)) =
       map (fun tag => hyphenate_trimmed (ascii_toLowerCase tag)) tags).
Proof.
  split; intros H; specialize (H [lit " a"]); discriminate H.
Qed.

(** C9. Given a response with a text, [suggestTagsWithAI] returns the empty
    list whenever the text parses and the parsed value is not an array of
    strings, and it throws exactly when [JSON.parse] throws. *)
Theorem suggest_tags_malformed
  API_KEY JSON_parse fenceRegex_match toLowerCase fault_message response t :
  not_configured API_KEY = false ->
  text response = Some t ->
  let run :=
    suggestTagsWithAI API_KEY JSON_parse fenceRegex_match toLowerCase
      fault_message (CallReturns response) in
  let parsed := JSON_parse (strip_fence fenceRegex_match (trim t)) in
  (forall v, parsed = inl v -> is_string_array v = false -> run = Return []) /\
  ((exists e, run = Throw e) <-> exists syntax_error, parsed = inr syntax_error).
Proof.
  intros Hkey Ht run parsed. subst run.
  rewrite (suggestTags_on_response _ _ _ _ _ _ Hkey).
  unfold parse_response. rewrite Ht. fold parsed.
  split.
  - intros v -> Hv. f_equal. unfold tags_of_parsed.
    destruct v as [| | | |elements|]; try reflexivity.
    simpl in Hv. by rewrite Hv.
  - destruct parsed as [v|msg]; split.
    + intros [e He]. discriminate He.
    + intros [msg Hm]. discriminate Hm.
    + eauto.
    + eauto.
Qed.

Lemma suggest_tags_malformed_witness :
  suggestTagsWithAI some_key
    (parser_yielding (inl (JArr [JStr (lit "work"); JNull])))
    no_fence ascii_toLowerCase plain_faults
    (CallReturns (reply (lit "[...]"))) = Return [] /\
  exists e,
    suggestTagsWithAI some_key
      (parser_yielding (inr (lit "Unexpected token")))
      no_fence ascii_toLowerCase plain_faults
      (CallReturns (reply (lit "oops"))) = Throw e.
Proof.
  split.
  - exact (proj1 (suggest_tags_malformed some_key
                    (parser_yielding (inl (JArr [JStr (lit "work"); JNull])))
                    no_fence ascii_toLowerCase plain_faults
                    (reply (lit "[...]")) (lit "[...]") eq_refl eq_refl)
             (JArr [JStr (lit "work"); JNull]) eq_refl eq_refl).
  - apply (proj2 (suggest_tags_malformed some_key
                    (parser_yielding (inr (lit "Unexpected token")))
                    no_fence ascii_toLowerCase plain_faults
                    (reply (lit "oops")) (lit "oops") eq_refl eq_refl)).
    by exists (lit "Unexpected token").
Defined.

(** ** Errors of the transport *)





(** * Further properties of the service *)

(** ** Trimming *)

Lemma starts_with_ws_head (s : jstring) :
  starts_with_ws s = match head s with Some c => isWhiteSpace c | None => false end.
Proof. by destruct s. Qed.

Lemma trimStart_split (s : jstring) :
  exists ws, s = ws ++ trimStart s /\ forallb isWhiteSpace ws = true.
Proof.
  induction s as [|c r (ws & Hr & Hws)]; simpl.
  - by exists [].
  - destruct (isWhiteSpace c) eqn:Hc.
    + exists (c :: ws). simpl. rewrite Hc, Hws. split; [by f_equal|done].
    + by exists [].
Qed.

Lemma trimStart_clean (s : jstring) : starts_with_ws (trimStart s) = false.
Proof.
  induction s as [|c r IH]; simpl; [done|].
  destruct (isWhiteSpace c) eqn:Hc; [done|]. simpl. exact Hc.
Qed.

Lemma trimEnd_split (s : jstring) :
  exists ws, s = trimEnd s ++ ws /\ forallb isWhiteSpace ws = true.
Proof.
  unfold trimEnd. destruct (trimStart_split (reverse s)) as (ws & Hs & Hws).
  exists (reverse ws). split.
  - rewrite <- reverse_app, <- Hs. by rewrite reverse_involutive.
  - rewrite forallb_forall in Hws. apply forallb_forall. intros x Hx.
    apply Hws. rewrite <- list_elem_of_In in *.
    by apply elem_of_reverse.
Qed.

Lemma trimEnd_clean (s : jstring) : ends_with_ws (trimEnd s) = false.
Proof.
  unfold ends_with_ws, trimEnd. rewrite last_reverse.
  pose proof (trimStart_clean (reverse s)) as H.
  by rewrite starts_with_ws_head in H.
Qed.

Lemma trimEnd_keeps_clean_start (s : jstring) :
  starts_with_ws s = false -> starts_with_ws (trimEnd s) = false.
Proof.
  intros Hs. destruct (trimEnd_split s) as (ws & Heq & _).
  destruct (trimEnd s) as [|c r]; [done|].
  rewrite Heq in Hs. exact Hs.
Qed.

(** [s.trim()] is [s] without a white-space prefix and a white-space
    suffix, and it neither begins nor ends with white space. *)
Lemma trim_spec (s : jstring) :
  (exists lead trail,
     s = lead ++ trim s ++ trail /\
     forallb isWhiteSpace lead = true /\ forallb isWhiteSpace trail = true) /\
  starts_with_ws (trim s) = false /\ ends_with_ws (trim s) = false.
Proof.
  unfold trim. split; [|split].
  - destruct (trimStart_split s) as (lead & Hs & Hlead).
    destruct (trimEnd_split (trimStart s)) as (trail & Ht & Htrail).
    exists lead, trail. by rewrite <- Ht.
  - apply trimEnd_keeps_clean_start, trimStart_clean.
  - apply trimEnd_clean.
Qed.

Lemma trim_elem_of (s : jstring) c : c ∈ trim s -> c ∈ s.
Proof.
  destruct (trim_spec s) as [(lead & trail & Hs & _) _].
  intros Hc. rewrite Hs. set_solver.
Qed.

(** ** The pair returned by the splitter *)

Lemma enhance_returned_details API_KEY ct cd chunks details :
  (enhanceTaskWithAIStream API_KEY ct cd (Stream chunks None)).2 =
    Return details ->
  not_configured API_KEY = false /\
  details = (enhance_finish (enhance_loop (enhance_init ct cd) chunks).1).2.
Proof.
  intros H. destruct (not_configured API_KEY) eqn:Hkey.
  - unfold enhanceTaskWithAIStream in H. rewrite Hkey in H. discriminate H.
  - rewrite (enhance_returns _ _ _ _ Hkey) in H. cbn [snd] in H.
    by injection H as <-.
Qed.

(** X1. Whenever [enhanceTaskWithAIStream] returns, the title is a single
    line without white space at either end, and the description has no
    white space at either end. *)
Theorem enhance_returns_clean_fields API_KEY ct cd chunks details :
  (enhanceTaskWithAIStream API_KEY ct cd (Stream chunks None)).2 =
    Return details ->
  (LF ∉ refinedTitle details) /\
  starts_with_ws (refinedTitle details) = false /\
  ends_with_ws (refinedTitle details) = false /\
  starts_with_ws (refinedDescription details) = false /\
  ends_with_ws (refinedDescription details) = false.
Proof.
  intros [Hkey ->]%enhance_returned_details.
  set (st := (enhance_loop (enhance_init ct cd) chunks).1).
  destruct (enhance_finish_details st) as [Hnone Hsome].
  destruct (decide (LF ∈ accumulatedResponseText st)) as [Hin|Hout].
  - apply list_elem_of_split_l in Hin as (pre & post & Hacc & Hpre).
    rewrite (Hsome pre post Hacc Hpre). cbn [refinedTitle refinedDescription].
    destruct (trim_spec pre) as (_ & ? & ?).
    destruct (trim_spec post) as (_ & ? & ?).
    repeat split; try done. intros Hc. by apply trim_elem_of in Hc.
  - rewrite (Hnone Hout). cbn [refinedTitle refinedDescription].
    destruct (trim_spec (accumulatedResponseText st)) as (_ & ? & ?).
    repeat split; try done. intros Hc. by apply trim_elem_of in Hc.
Qed.

Lemma enhance_returns_clean_fields_witness :
  let details :=
    {| refinedTitle := lit "Buy milk";
       refinedDescription := lit "Remember the reusable bags." |} in
  (LF ∉ refinedTitle details) /\
  starts_with_ws (refinedTitle details) = false /\
  ends_with_ws (refinedTitle details) = false /\
  starts_with_ws (refinedDescription details) = false /\
  ends_with_ws (refinedDescription details) = false.
Proof.
  intros details.
  exact (enhance_returns_clean_fields some_key [] [] buy_milk details eq_refl).
Defined.

(** The log of a session that completes: the callbacks of the loop, then
    the closing ones. *)
Lemma enhance_completed_log API_KEY ct cd chunks :
  not_configured API_KEY = false ->
  let details :=
    (enhance_finish (enhance_loop (enhance_init ct cd) chunks).1).2 in
  enhanceTaskWithAIStream API_KEY ct cd (Stream chunks None) =
  ((enhance_loop (enhance_init ct cd) chunks).2 ++
   (if bool_decide (LF ∈ stream_text chunks) || truthy (refinedTitle details)
    then [OnTitleCandidate (refinedTitle details)]
    else []) ++
   [OnDescriptionCandidate (refinedDescription details)],
   Return details).
Proof.
  intros Hkey details. subst details.
  rewrite (enhance_returns _ _ _ _ Hkey).
  destruct (enhance_loop_inv chunks _ (enhance_inv_init ct cd))
    as [[_ Hsent] Hacc].
  set (st := (enhance_loop (enhance_init ct cd) chunks).1) in *.
  simpl in Hacc. f_equal. f_equal.
  unfold enhance_finish. cbn [fst snd refinedTitle refinedDescription].
  rewrite Hsent, Hacc. f_equal.
  destruct (Z.eqb_spec (indexOf (stream_text chunks) LF) (-1)) as [Hno|Hyes].
  - rewrite bool_decide_eq_false_2 by (rewrite indexOf_present; tauto).
    reflexivity.
  - rewrite bool_decide_eq_true_2 by (by rewrite indexOf_present).
    reflexivity.
Qed.

(** X2. When the transport throws, [enhanceTaskWithAIStream] throws the
    same value and has made exactly the live callbacks. If the call itself
    throws, no callback is made. If the stream throws after some chunks, the
    callbacks made are those a session that completes on the same chunks
    makes before its closing callbacks: the log of that session is the log
    of the failed one followed by the closing title callback (when the text
    has a newline or the final title is not empty) and the closing body
    callback. *)
Theorem enhance_failure_keeps_live_callbacks API_KEY ct cd chunks e :
  not_configured API_KEY = false ->
  let failed :=
    enhanceTaskWithAIStream API_KEY ct cd (Stream chunks (Some e)) in
  enhanceTaskWithAIStream API_KEY ct cd (StreamCallThrows e) = ([], Throw e) /\
  failed.2 = Throw e /\
  exists details,
    enhanceTaskWithAIStream API_KEY ct cd (Stream chunks None) =
    (failed.1 ++
     (if bool_decide (LF ∈ stream_text chunks) || truthy (refinedTitle details)
      then [OnTitleCandidate (refinedTitle details)]
      else []) ++
     [OnDescriptionCandidate (refinedDescription details)],
     Return details).
Proof.
  intros Hkey failed.
  assert (Hfailed : failed = ((enhance_loop (enhance_init ct cd) chunks).2,
                              Throw e)).
  { subst failed. unfold enhanceTaskWithAIStream. rewrite Hkey.
    by destruct (enhance_loop _ chunks). }
  rewrite Hfailed. cbn [fst snd]. split; [|split; [reflexivity|]].
  - unfold enhanceTaskWithAIStream. by rewrite Hkey.
  - eexists. exact (enhance_completed_log API_KEY ct cd chunks Hkey).
Qed.

Lemma enhance_failure_keeps_live_callbacks_witness :
  let offline := TransportError true (lit "offline") in
  enhanceTaskWithAIStream some_key [] [] (Stream buy_milk (Some offline)) =
  ([OnTitleCandidate (lit "Buy milk"); OnDescriptionCandidate [];
    OnDescriptionCandidate (lit "Remember ");
    OnDescriptionCandidate (lit "Remember the reusable bags.")],
   Throw offline) /\
  enhanceTaskWithAIStream some_key [] [] (StreamCallThrows offline) =
  ([], Throw offline).
Proof.
  intros offline.
  destruct (enhance_failure_keeps_live_callbacks some_key [] [] buy_milk
              offline eq_refl) as (Hcall & Hthrown & details & Hcompleted).
  split; [|exact Hcall].
  set (failed := enhanceTaskWithAIStream some_key [] []
                   (Stream buy_milk (Some offline))) in *.
  assert (Hdetails : details =
            {| refinedTitle := lit "Buy milk";
               refinedDescription := lit "Remember the reusable bags." |}).
  { apply (f_equal snd) in Hcompleted. cbn [snd] in Hcompleted.
    by injection Hcompleted as <-. }
  subst details. apply (f_equal fst) in Hcompleted. cbn [fst] in Hcompleted.
  change (bool_decide _ || _) with true in Hcompleted. cbv iota in Hcompleted.
  change ((enhanceTaskWithAIStream some_key [] [] (Stream buy_milk None)).1)
    with ([OnTitleCandidate (lit "Buy milk"); OnDescriptionCandidate [];
           OnDescriptionCandidate (lit "Remember ");
           OnDescriptionCandidate (lit "Remember the reusable bags.")] ++
          [OnTitleCandidate (lit "Buy milk")] ++
          [OnDescriptionCandidate (lit "Remember the reusable bags.")])
    in Hcompleted.
  rewrite !app_assoc in Hcompleted.
  apply app_inj_tail in Hcompleted as [Hcompleted _].
  apply app_inj_tail in Hcompleted as [Hlive _].
  destruct failed as [log settled]. cbn [fst snd] in *.
  by rewrite <- Hlive, Hthrown.
Defined.

(** ** The two chunk forwarders *)

Lemma subtasks_loop_spec chunks acc :
  subtasks_loop acc chunks = (acc ++ stream_text chunks, omap text chunks).
Proof.
  revert acc. induction chunks as [|chunk rest IH]; intros acc; simpl.
  - by rewrite app_nil_r.
  - unfold stream_text. simpl. destruct (text chunk) as [t|]; rewrite IH.
    + simpl. by rewrite <- app_assoc.
    + reflexivity.
Qed.

(** X3. [streamSubTasksWithAI] hands [onChunk] the text fragments of the
    stream, each once and in order, skipping the chunks without text; when
    the stream ends it returns the concatenation of what it handed over, and
    when the stream throws it throws that value after the fragments already
    forwarded. *)
Theorem subtasks_forwards_every_fragment API_KEY chunks failure :
  not_configured API_KEY = false ->
  streamSubTasksWithAI API_KEY (Stream chunks failure) =
  (omap text chunks,
   match failure with
   | None => Return (concat (omap text chunks))
   | Some e => Throw e
   end).
Proof.
  intros Hkey. unfold streamSubTasksWithAI. rewrite Hkey.
  rewrite subtasks_loop_spec. by destruct failure.
Qed.

Lemma subtasks_forwards_every_fragment_witness :
  streamSubTasksWithAI some_key
    (Stream [fragment (lit "- a"); {| text := None; candidates := None |};
             fragment (lit "- b")] None) =
  ([lit "- a"; lit "- b"], Return (lit "- a- b")).
Proof.
  exact (subtasks_forwards_every_fragment some_key
           [fragment (lit "- a"); {| text := None; candidates := None |};
            fragment (lit "- b")] None eq_refl).
Defined.

Lemma context_loop_spec chunks st :
  context_loop st chunks =
  ({| accumulatedText := accumulatedText st ++ stream_text chunks;
      finalApiResponse :=
        match last chunks with
        | Some response => Some response
        | None => finalApiResponse st
        end |},
   map OnChunk (omap text chunks)).
Proof.
  revert st. induction chunks as [|chunk rest IH]; intros st.
  - simpl. rewrite app_nil_r. by destruct st.
  - cbn [context_loop].
    pose proof (context_step_retains st chunk) as Hkept.
    assert (Htext : accumulatedText (context_step st chunk).1 ++ stream_text rest
                    = accumulatedText st ++ stream_text (chunk :: rest)).
    { change (chunk :: rest) with ([chunk] ++ rest).
      rewrite stream_text_app, app_assoc. f_equal.
      unfold context_step, stream_text. simpl.
      destruct (text chunk); simpl; by rewrite app_nil_r. }
    assert (Hlog : (context_step st chunk).2 ++ map OnChunk (omap text rest)
                   = map OnChunk (omap text (chunk :: rest))).
    { unfold context_step. simpl. by destruct (text chunk). }
    destruct (context_step st chunk) as [st1 ev1]. cbn [fst snd] in *.
    rewrite IH, Htext, Hlog, Hkept. f_equal. f_equal.
    destruct rest as [|c rest']; [reflexivity|].
    change (last (chunk :: c :: rest')) with (last (c :: rest')).
    destruct (last (c :: rest')) eqn:Hlast; [reflexivity|].
    apply last_None in Hlast. discriminate Hlast.
Qed.

Lemma cited_chunks_candidates response :
  cited_chunks response =
  match citation_candidates response with
  | [] => None
  | gc :: gcs => Some (gc :: gcs)
  end.
Proof.
  unfold cited_chunks, metadata_of, citation_candidates.
  destruct (candidates response) as [[|c cs]|]; try reflexivity.
  destruct (cand_groundingMetadata c) as [gm|]; [|reflexivity].
  by destruct (groundingChunks gm) as [[|gc gcs]|].
Qed.

(** X4. The whole log of [streamContextualInfoWithAI] when its callbacks
    return normally: the text fragments of the stream go to [onChunk], each
    once and in order, and every [onChunk] call precedes the [onSources]
    call. A stream that ends after at least one chunk reports the sources
    extracted from the citation candidates of the last chunk, an empty list
    when it has none, and returns the concatenation of the fragments. A
    stream that throws reports them only when the last chunk has citation
    candidates, makes no [onSources] call otherwise, and throws the value
    the stream threw. *)
Theorem context_log_shape API_KEY throws chunks failure :
  not_configured API_KEY = false ->
  (forall log e, throws log e = None) ->
  streamContextualInfoWithAI_on API_KEY throws (Stream chunks failure) =
  match failure with
  | None =>
      (map OnChunk (omap text chunks) ++
       match last chunks with
       | Some response =>
           [OnSources (extract_sources (citation_candidates response))]
       | None => []
       end,
       Return (concat (omap text chunks)))
  | Some e =>
      (map OnChunk (omap text chunks) ++
       match last chunks with
       | Some response =>
           match citation_candidates response with
           | [] => []
           | _ :: _ =>
               [OnSources (extract_sources (citation_candidates response))]
           end
       | None => []
       end,
       Throw e)
  end.
Proof.
  intros Hkey Hquiet.
  rewrite (streamContextualInfoWithAI_on_quiet _ _ _ Hquiet).
  rewrite streamContextualInfoWithAI_returning, Hkey.
  rewrite context_loop_spec. cbn [accumulatedText finalApiResponse].
  unfold report_sources, salvage_sources.
  destruct failure; destruct (last chunks) as [response|]; try reflexivity;
    rewrite cited_chunks_candidates;
    by destruct (citation_candidates response).
Qed.

Lemma context_log_shape_witness :
  let offline := TransportError true (lit "offline") in
  let y := {| uri := lit "https://y"; title := lit "https://y" |} in
  streamContextualInfoWithAI_on some_key returning
    (Stream [fragment (lit "a");
             cited_fragment (lit "b") [cite (lit "ftp://x"); cite (lit "https://y")]]
       (Some offline)) =
    ([OnChunk (lit "a"); OnChunk (lit "b"); OnSources [y]], Throw offline) /\
  streamContextualInfoWithAI_on some_key returning
    (Stream [fragment (lit "a"); fragment (lit "b")] (Some offline)) =
    ([OnChunk (lit "a"); OnChunk (lit "b")], Throw offline) /\
  streamContextualInfoWithAI_on some_key returning
    (Stream [fragment (lit "a"); fragment (lit "b")] None) =
    ([OnChunk (lit "a"); OnChunk (lit "b"); OnSources []],
     Return (lit "ab")) /\
  streamContextualInfoWithAI_on some_key returning (Stream [] None) =
    ([], Return []).
Proof.
  intros offline y. split; [|split; [|split]].
  - exact (context_log_shape some_key returning
             [fragment (lit "a");
              cited_fragment (lit "b")
                [cite (lit "ftp://x"); cite (lit "https://y")]]
             (Some offline) eq_refl (fun _ _ => eq_refl)).
  - exact (context_log_shape some_key returning
             [fragment (lit "a"); fragment (lit "b")]
             (Some offline) eq_refl (fun _ _ => eq_refl)).
  - exact (context_log_shape some_key returning
             [fragment (lit "a"); fragment (lit "b")]
             None eq_refl (fun _ _ => eq_refl)).
  - exact (context_log_shape some_key returning [] None eq_refl
             (fun _ _ => eq_refl)).
Defined.

(** * Properties of the task form *)

(** ** The chunk callback *)

Lemma setDescription_same f : setDescription f (form_description f) = f.
Proof. by destruct f. Qed.

Lemma append_chunk_later frs f :
  foldl append_chunk (false, f) frs =
  (false, setDescription f (form_description f ++ concat frs)).
Proof.
  revert f. induction frs as [|c frs IH]; intros f; simpl.
  - by rewrite app_nil_r, setDescription_same.
  - rewrite IH. cbn [setDescription form_description]. by rewrite <- app_assoc.
Qed.

Lemma append_chunk_first frs f :
  foldl append_chunk (true, f) frs =
  (match frs with [] => true | _ :: _ => false end,
   setDescription f (appended_description (form_description f) frs)).
Proof.
  destruct frs as [|c frs]; simpl.
  - by rewrite setDescription_same.
  - rewrite append_chunk_later. cbn [setDescription form_description].
    by rewrite <- !app_assoc.
Qed.

(** X5. [handleSuggestSubtasks] changes the description and its own error
    line, nothing else. If the stream delivered no text fragment the
    description is as it was; otherwise it is the old description, a line
    break unless that was empty or ended with one, and the streamed text:
    also when the stream then failed, in which case the error line shows
    the message. *)
Theorem handleSuggestSubtasks_appends API_KEY f chunks failure :
  not_configured API_KEY = false ->
  handleSuggestSubtasks API_KEY f (Stream chunks failure) =
  let f1 :=
    setDescription (setSubtasksError f None)
      (appended_description (form_description f) (omap text chunks)) in
  match failure with
  | None => f1
  | Some e =>
      setSubtasksError f1
        (Some (message_or (lit "AI sub-task suggestion failed.") e))
  end.
Proof.
  intros Hkey. unfold handleSuggestSubtasks, streamSubTasksWithAI.
  rewrite Hkey, subtasks_loop_spec.
  destruct failure; by rewrite append_chunk_first.
Qed.

Lemma handleSuggestSubtasks_appends_witness :
  form_description
    (handleSuggestSubtasks some_key (form_with (lit "Trip") (lit "Book hotel"))
       (Stream [fragment (lit "- a"); fragment (lit "- b")] None)) =
  lit "Book hotel" ++ [LF] ++ lit "- a- b".
Proof.
  exact (f_equal form_description
           (handleSuggestSubtasks_appends some_key
              (form_with (lit "Trip") (lit "Book hotel"))
              [fragment (lit "- a"); fragment (lit "- b")] None eq_refl)).
Defined.

Lemma context_callback_chunks frs st :
  foldl context_callback st (map OnChunk frs) = foldl append_chunk st frs.
Proof. revert st. induction frs as [|c frs IH]; intros st; simpl; [done|apply IH]. Qed.

Lemma report_sources_last chunks :
  report_sources (last chunks) =
  match last chunks with
  | Some _ => [OnSources (last_chunk_sources chunks)]
  | None => []
  end.
Proof.
  unfold report_sources, last_chunk_sources, passing_candidates.
  destruct (last chunks) as [r|]; [|done]. by destruct (cited_chunks r).
Qed.

Lemma salvage_sources_last chunks :
  salvage_sources (last chunks) = [] /\ last_chunk_sources chunks = [] \/
  salvage_sources (last chunks) = [OnSources (last_chunk_sources chunks)].
Proof.
  unfold salvage_sources, last_chunk_sources, passing_candidates.
  destruct (last chunks) as [r|]; [|by left].
  destruct (cited_chunks r); [by right|by left].
Qed.

(** X6. [handleFetchContext] changes the description, the sources and its
    own error line, nothing else. The description grows as in
    [handleSuggestSubtasks]. The sources shown afterwards are those of the
    last chunk received, whether the stream ended or failed after it, and
    none when there was no chunk: sources of an earlier fetch never
    survive. *)
Theorem handleFetchContext_result API_KEY f chunks failure :
  not_configured API_KEY = false ->
  handleFetchContext API_KEY f (Stream chunks failure) =
  let f1 :=
    setContextualSources
      (setDescription (setContextError f None)
         (appended_description (form_description f) (omap text chunks)))
      (last_chunk_sources chunks) in
  match failure with
  | None => f1
  | Some e =>
      setContextError f1 (Some (message_or (lit "AI context fetch failed.") e))
  end.
Proof.
  intros Hkey. unfold handleFetchContext.
  rewrite streamContextualInfoWithAI_returning, Hkey, context_loop_spec. cbn [accumulatedText finalApiResponse].
  replace (match last chunks with Some r => Some r | None => None end)
    with (last chunks) by (by destruct (last chunks)).
  destruct failure as [e|].
  - rewrite foldl_app, context_callback_chunks, append_chunk_first.
    destruct (salvage_sources_last chunks) as [[-> ->]| ->]; reflexivity.
  - rewrite foldl_app, context_callback_chunks, append_chunk_first.
    rewrite report_sources_last. unfold last_chunk_sources.
    by destruct (last chunks) eqn:Hlast.
Qed.

Lemma handleFetchContext_result_witness :
  let f' :=
    handleFetchContext some_key (form_with (lit "Trip") (lit "Book hotel"))
      (Stream [cited_fragment (lit "See ")
                 [cite (lit "ftp://x"); cite (lit "https://y")]]
         (Some (TransportError true (lit "offline")))) in
  form_description f' = lit "Book hotel" ++ [LF] ++ lit "See " /\
  form_contextualSources f' =
    [{| uri := lit "https://y"; title := lit "https://y" |}] /\
  contextError f' = Some (lit "offline").
Proof.
  intros f'. subst f'.
  rewrite (handleFetchContext_result some_key
             (form_with (lit "Trip") (lit "Book hotel"))
             [cited_fragment (lit "See ")
                [cite (lit "ftp://x"); cite (lit "https://y")]]
             (Some (TransportError true (lit "offline"))) eq_refl).
  split; [|split]; reflexivity.
Defined.

(** ** AI Enhance *)

Lemma last_title_app l1 l2 :
  last_title (l1 ++ l2) =
  match last_title l2 with Some t => Some t | None => last_title l1 end.
Proof. unfold last_title. by rewrite omap_app, last_app. Qed.

Lemma last_description_app l1 l2 :
  last_description (l1 ++ l2) =
  match last_description l2 with Some t => Some t | None => last_description l1 end.
Proof. unfold last_description. by rewrite omap_app, last_app. Qed.

(** The setters only remember the last value of each kind. *)
Lemma foldl_enhance_callback log f :
  foldl enhance_callback f log =
  setDescription
    (setTitle f (default (form_title f) (last_title log)))
    (default (form_description f) (last_description log)).
Proof.
  induction log as [|e log IH] using rev_ind.
  - by destruct f.
  - rewrite foldl_app, IH, last_title_app, last_description_app.
    destruct e; reflexivity.
Qed.

(** While no newline has come, the loop sends titles only, and the last
    one is the whole trimmed text. *)
Lemma enhance_loop_titles_only chunks st :
  enhance_inv st ->
  LF ∉ accumulatedResponseText st ++ stream_text chunks ->
  last_description (enhance_loop st chunks).2 = None /\
  last_title (enhance_loop st chunks).2 =
    match omap text chunks with
    | [] => None
    | _ :: _ => Some (trim (accumulatedResponseText st ++ stream_text chunks))
    end.
Proof.
  revert st. induction chunks as [|chunk rest IH]; intros st Hinv Hno; [done|].
  change (chunk :: rest) with ([chunk] ++ rest) in Hno.
  rewrite stream_text_app, app_assoc in Hno.
  cbn [enhance_loop].
  pose proof (enhance_step_inv st chunk Hinv) as Hinv1.
  pose proof (enhance_step_text st chunk) as Htext1.
  assert (Hfired :
    (enhance_step st chunk).2 =
    match text chunk with
    | Some t => [OnTitleCandidate (trim (accumulatedResponseText st ++ t))]
    | None => []
    end).
  { unfold enhance_step. destruct (text chunk) as [t|] eqn:Ht; [|done].
    apply (enhance_absorb_fired st t Hinv).
    unfold stream_text in Hno. simpl in Hno. rewrite Ht in Hno. simpl in Hno.
    rewrite app_nil_r in Hno. intros Hc. apply Hno.
    apply elem_of_app. by left. }
  destruct (enhance_step st chunk) as [st1 ev1]. cbn [fst snd] in *.
  rewrite <- Htext1 in Hno. destruct (IH st1 Hinv1 Hno) as [Hd Ht].
  destruct (enhance_loop st1 rest) as [st2 ev2]. cbn [fst snd] in *.
  rewrite last_title_app, last_description_app, Hd, Ht, Hfired.
  change (stream_text (chunk :: rest)) with (stream_text ([chunk] ++ rest)).
  rewrite stream_text_app, app_assoc, <- Htext1.
  assert (Hrest : omap text rest = [] -> stream_text rest = [])
    by (unfold stream_text; by intros ->).
  assert (Hcons : omap text (chunk :: rest) =
                  match text chunk with
                  | Some t => t :: omap text rest
                  | None => omap text rest
                  end) by (simpl; by destruct (text chunk)).
  assert (Hone : stream_text [chunk] =
                 match text chunk with Some t => t | None => [] end).
  { unfold stream_text. simpl. destruct (text chunk); simpl;
      by rewrite ?app_nil_r. }
  rewrite Hcons. rewrite Hone in Htext1.
  destruct (text chunk) as [t|]; (split; [reflexivity|]);
    destruct (omap text rest) eqn:Hfr; try reflexivity.
  cbn. by rewrite Hrest, app_nil_r, Htext1.
Qed.

(** X7. After [handleAiEnhance] has run on a stream that ended, the form
    shows what [enhanceTaskWithAIStream] returned: the description is the
    returned one, and the title is the returned one provided the stream
    delivered a text fragment. A stream without any text fragment leaves the
    title as typed and empties the description. Nothing else of the form
    changes, apart from the error line being cleared. *)
Theorem handleAiEnhance_shows_result API_KEY f chunks details :
  (enhanceTaskWithAIStream API_KEY (form_title f) (form_description f)
     (Stream chunks None)).2 = Return details ->
  handleAiEnhance API_KEY f (Stream chunks None) =
  setDescription
    (setTitle (setEnhancementError f None)
       (match omap text chunks with
        | [] => form_title f
        | _ :: _ => refinedTitle details
        end))
    (refinedDescription details) /\
  (omap text chunks = [] -> refinedDescription details = []).
Proof.
  intros Hret. pose proof Hret as [Hkey Hdet]%enhance_returned_details.
  unfold handleAiEnhance.
  rewrite (enhance_returns _ _ _ _ Hkey) in *. cbn [snd] in Hret.
  set (ct := form_title f) in *. set (cd := form_description f) in *.
  destruct (enhance_loop_inv chunks _ (enhance_inv_init ct cd))
    as [[_ Hsent] Hacc].
  simpl in Hacc.
  set (st := (enhance_loop (enhance_init ct cd) chunks).1) in *.
  set (live := (enhance_loop (enhance_init ct cd) chunks).2) in *.
  rewrite foldl_enhance_callback, last_title_app, last_description_app.
  assert (Hfin : enhance_finish st =
    ((if titleSent st then [OnTitleCandidate (refinedTitle details)]
      else if truthy (refinedTitle details)
           then [OnTitleCandidate (refinedTitle details)] else []) ++
     [OnDescriptionCandidate (refinedDescription details)], details)).
  { rewrite Hdet. reflexivity. }
  rewrite Hfin. cbn [fst snd].
  assert (Hld : forall l d,
            last_description (l ++ [OnDescriptionCandidate d]) = Some d).
  { intros l d. rewrite last_description_app. reflexivity. }
  rewrite Hld.
  destruct (decide (LF ∈ stream_text chunks)) as [Hin|Hout].
  - (* a newline came: the title was sent and is sent again *)
    assert (titleSent st = true) as ->.
    { rewrite Hsent, Hacc. apply indexOf_present in Hin.
      by destruct (Z.eqb_spec (indexOf (stream_text chunks) LF) (-1)). }
    rewrite last_title_app. cbn.
    split.
    + destruct (omap text chunks) eqn:Hfr; [|reflexivity].
      unfold stream_text in Hin. rewrite Hfr in Hin. by apply elem_of_nil in Hin.
    + intros Hfr. unfold stream_text in Hin. rewrite Hfr in Hin.
      by apply elem_of_nil in Hin.
  - (* no newline *)
    assert (titleSent st = false) as ->.
    { rewrite Hsent, Hacc. by rewrite (indexOf_absent _ _ Hout). }
    destruct (enhance_finish_details st) as [Hnone _].
    rewrite Hacc in Hnone. specialize (Hnone Hout). rewrite <- Hdet in Hnone.
    destruct (enhance_loop_titles_only chunks (enhance_init ct cd)
                (enhance_inv_init ct cd) Hout) as [_ Hlast].
    fold live in Hlast. cbn [accumulatedResponseText enhance_init app] in Hlast.
    rewrite last_title_app.
    assert (Htitle : refinedTitle details = trim (stream_text chunks))
      by (by rewrite Hnone).
    split; [|by rewrite Hnone].
    destruct (truthy (refinedTitle details)) eqn:Htr; cbn.
    + destruct (omap text chunks) eqn:Hfr; [|reflexivity].
      unfold stream_text in Htitle. rewrite Hfr in Htitle.
      rewrite Htitle in Htr. discriminate Htr.
    + rewrite Hlast. destruct (omap text chunks); [reflexivity|].
      cbn. by rewrite Htitle.
Qed.

Lemma handleAiEnhance_shows_result_witness :
  let f := form_with (lit "milk") (lit "bags") in
  form_title (handleAiEnhance some_key f (Stream buy_milk None)) =
    lit "Buy milk" /\
  form_description (handleAiEnhance some_key f (Stream buy_milk None)) =
    lit "Remember the reusable bags." /\
  form_title (handleAiEnhance some_key f (Stream [] None)) = lit "milk" /\
  form_description (handleAiEnhance some_key f (Stream [] None)) = [].
Proof.
  intros f.
  destruct (handleAiEnhance_shows_result some_key f buy_milk
              {| refinedTitle := lit "Buy milk";
                 refinedDescription := lit "Remember the reusable bags." |}
              eq_refl) as [Hfull _].
  destruct (handleAiEnhance_shows_result some_key f []
              {| refinedTitle := []; refinedDescription := [] |} eq_refl)
    as [Hempty _].
  rewrite Hfull, Hempty. repeat split.
Defined.

(** * Properties of the one-shot calls and of their callers *)

Lemma parse_throws_wrapped
  API_KEY JSON_parse fenceRegex_match fault_message outcome e :
  not_configured API_KEY = false ->
  parseTaskStringWithAI API_KEY JSON_parse fenceRegex_match fault_message
    outcome = Throw e ->
  exists cause, e = parse_failure cause.
Proof.
  intros Hkey. unfold parseTaskStringWithAI. rewrite Hkey.
  destruct outcome as [response|cause].
  - destruct (parse_response _ _ _ response) as [v|cause].
    + destruct (coerce_parsed fault_message v) as [t|cause]; [done|].
      intros [= <-]. eauto.
    + intros [= <-]. eauto.
  - intros [= <-]. eauto.
Qed.

Lemma ai_error_message_wrapped cause :
  ai_error_message (parse_failure cause) = message_of (parse_failure cause).
Proof.
  unfold ai_error_message, message_or. cbn [instanceofError parse_failure].
  cbn [message_of].
  replace (startsWith _ _) with true; [done|].
  symmetry. apply startsWith_prefix. eauto.
Qed.

(** X8. Adding a task from the header. A blank input does nothing. For any
    other input the handler of [App] never rejects, so the header clears its
    input whatever happened: when the task was parsed the review dialog
    opens on it with no error; when the key is missing the error shown is
    ["AI Error: Gemini API key not configured."]; and every other failure
    (transport, missing text, malformed JSON) shows the service's own message,
    which begins with ["Failed to parse task with AI."], without the
    ["AI Error: "] prefix. *)
Theorem header_ai_submit
  API_KEY JSON_parse fenceRegex_match fault_message s h outcome :
  let run :=
    handleAiSubmit API_KEY JSON_parse fenceRegex_match fault_message
      s h outcome in
  let parsed :=
    parseTaskStringWithAI API_KEY JSON_parse fenceRegex_match fault_message
      outcome in
  (truthy (trim (nlpInput h)) = false -> run = (s, h)) /\
  (truthy (trim (nlpInput h)) = true ->
   run.2 = {| nlpInput := []; isProcessingAi := false |} /\
   tasks run.1 = tasks s /\ isSubmitting run.1 = false /\
   (forall task, parsed = Return task ->
      isModalOpen run.1 = true /\ aiSuggestedTask run.1 = Some task /\
      editingTask run.1 = None /\ app_error run.1 = None) /\
   (forall e, parsed = Throw e ->
      isModalOpen run.1 = isModalOpen s /\
      exists message,
        app_error run.1 = Some message /\
        (not_configured API_KEY = true ->
         message = lit "AI Error: Gemini API key not configured.") /\
        (not_configured API_KEY = false ->
         message = message_of e /\
         exists details,
           message = lit "Failed to parse task with AI." ++ details))).
Proof.
  intros run parsed. subst run. unfold handleAiSubmit, handleAddTaskWithAi.
  fold parsed. split.
  - by intros ->.
  - intros ->. cbn [negb]. destruct parsed as [task|e] eqn:Hparsed;
      cbn [fst snd tasks isSubmitting isModalOpen aiSuggestedTask editingTask
           app_error setIsSubmitting openModalWithAISuggestion setError].
    + do 3 (split; [reflexivity|]). split.
      * by intros t [= <-].
      * intros e [=].
    + do 3 (split; [reflexivity|]). split; [intros t [=]|].
      intros e' [= <-].
      split; [done|]. eexists. split; [reflexivity|]. split.
      * intros Hkey. subst parsed. unfold parseTaskStringWithAI in Hparsed.
        rewrite Hkey in Hparsed. by injection Hparsed as <-.
      * intros Hkey. subst parsed.
        apply (parse_throws_wrapped _ _ _ _ _ _ Hkey) in Hparsed
          as [cause ->].
        rewrite ai_error_message_wrapped. split; [done|].
        cbn [parse_failure message_of]. eauto.
Qed.

Lemma header_ai_submit_witness :
  let s :=
    {| tasks := []; isModalOpen := false; editingTask := None;
       aiSuggestedTask := None; app_error := None; isSubmitting := false |} in
  let h := {| nlpInput := lit "call Sam"; isProcessingAi := false |} in
  let run :=
    handleAiSubmit some_key (parser_yielding (inl JNull)) no_fence
      plain_faults s h (CallThrows (TransportError true (lit "offline"))) in
  run.2 = {| nlpInput := []; isProcessingAi := false |} /\
  app_error run.1 =
    Some (lit "Failed to parse task with AI. Details: offline").
Proof.
  intros s h run.
  destruct (proj2 (header_ai_submit some_key (parser_yielding (inl JNull))
                     no_fence plain_faults s h
                     (CallThrows (TransportError true (lit "offline"))))
              eq_refl)
    as (Hinput & _ & _ & _ & Hthrow).
  split; [exact Hinput|].
  destruct (Hthrow _ eq_refl) as (_ & message & Herr & _ & Hmsg).
  fold run in Herr. rewrite Herr.
  destruct (Hmsg eq_refl) as [-> _]. reflexivity.
Defined.

(** X9. What [parseTaskStringWithAI] leaves alone. For a response that
    parses as an object, every property other than [priority] and [tags]
    (title, description, dueDate and any other) is returned as parsed; a
    [priority] that is one of the three literals is kept; a [tags] that is an
    array is kept as it is, whatever its elements. *)
Theorem parse_passes_through
  API_KEY JSON_parse fenceRegex_match fault_message response m :
  not_configured API_KEY = false ->
  parse_response JSON_parse fenceRegex_match fault_message response =
    Return (JObj m) ->
  exists m',
    parseTaskStringWithAI API_KEY JSON_parse fenceRegex_match fault_message
      (CallReturns response) = Return (TaskObject m') /\
    (forall k, k <> lit "priority" -> k <> lit "tags" -> m' !! k = m !! k) /\
    (forall s, s ∈ priority_literals ->
       m !! lit "priority" = Some (JStr s) ->
       m' !! lit "priority" = Some (JStr s)) /\
    (forall elements,
       m !! lit "tags" = Some (JArr elements) ->
       m' !! lit "tags" = Some (JArr elements)).
Proof.
  intros Hkey Hparse. exists (coerce_properties m).
  rewrite (parseTask_on_response _ _ _ _ _ Hkey), Hparse.
  split; [reflexivity|]. unfold coerce_properties.
  set (m1 := if prop_truthy (m !! lit "priority") then _ else m).
  assert (Hm1 : forall k, k <> lit "priority" -> m1 !! k = m !! k).
  { intros k Hk. subst m1. destruct (prop_truthy _); [|done].
    destruct (m !! lit "priority") as [prio|]; [|done].
    destruct (includes_priority prio); by rewrite lookup_insert_ne. }
  split; [|split].
  - intros k Hp Ht. rewrite <- (Hm1 k Hp).
    destruct (_ || _); [|done]. by rewrite lookup_insert_ne.
  - intros s Hs Hprio.
    assert (m1 !! lit "priority" = Some (JStr s)) as H1.
    { subst m1. rewrite Hprio.
      assert (s <> []) as Hne.
      { intros ->. apply list_elem_of_In in Hs. simpl in Hs.
        by destruct Hs as [|[|[|]]]. }
      replace (prop_truthy (Some (JStr s))) with true
        by (by destruct s).
      replace (includes_priority (JStr s)) with true.
      - by rewrite lookup_insert_eq.
      - symmetry. apply existsb_exists. exists s.
        split; [by apply list_elem_of_In|]. by apply bool_decide_eq_true. }
    destruct (_ || _); [|done].
    by rewrite lookup_insert_ne by apply priority_is_not_tags.
  - intros elements Htags.
    assert (m1 !! lit "tags" = Some (JArr elements)) as H1.
    { rewrite Hm1; [done|]. discriminate. }
    rewrite H1. cbn [prop_truthy json_truthy isArray negb orb]. exact H1.
Qed.

Lemma parse_passes_through_witness :
  let m : gmap jstring json :=
    {[ lit "title" := JStr (lit "Call Sam");
       lit "priority" := JStr (lit "High");
       lit "tags" := JArr [JStr (lit "phone"); JNull] ]} in
  exists m',
    parseTaskStringWithAI some_key (parser_yielding (inl (JObj m))) no_fence
      plain_faults (CallReturns (reply (lit "{...}"))) =
      Return (TaskObject m') /\
    m' !! lit "title" = Some (JStr (lit "Call Sam")) /\
    m' !! lit "priority" = Some (JStr (lit "High")) /\
    m' !! lit "tags" = Some (JArr [JStr (lit "phone"); JNull]).
Proof.
  intros m.
  destruct (parse_passes_through some_key (parser_yielding (inl (JObj m)))
              no_fence plain_faults (reply (lit "{...}")) m eq_refl eq_refl)
    as (m' & Hrun & Hother & Hprio & Htags).
  exists m'. split; [exact Hrun|]. split; [|split].
  - rewrite Hother; [reflexivity|discriminate|discriminate].
  - apply Hprio; [|reflexivity].
    apply list_elem_of_In. simpl. tauto.
  - apply Htags. reflexivity.
Defined.

Lemma suggested_priority_coerced (m : gmap jstring json) :
  exists p, suggested_priority (coerce_properties m) = JStr (Priority_value p).
Proof.
  destruct (coerce_properties_spec m) as (_ & Htruthy & Hfalsy).
  unfold suggested_priority.
  destruct (prop_truthy (m !! lit "priority")) eqn:Ht.
  - destruct (Htruthy eq_refl) as [-> | (s & Hs & ->)].
    + by exists Medium.
    + apply list_elem_of_In in Hs. simpl in Hs.
      destruct Hs as [<-|[<-|[<-|[]]]];
        [by exists Low|by exists Medium|by exists High].
  - rewrite (Hfalsy eq_refl). exists Medium.
    destruct (m !! lit "priority") as [v|]; [|done].
    simpl in Ht. by rewrite Ht.
Qed.

(** X10. Whatever task [parseTaskStringWithAI] returns, the priority the
    form takes from it, [aiSuggestion.priority || Priority.Medium], is one of
    the three members of [Priority]: a falsy priority that the service
    returned unchanged reaches the form as [Medium]. *)
Theorem suggested_priority_is_valid
  API_KEY JSON_parse fenceRegex_match fault_message outcome task :
  parseTaskStringWithAI API_KEY JSON_parse fenceRegex_match fault_message
    outcome = Return task ->
  exists p,
    suggested_priority (task_properties task) = JStr (Priority_value p).
Proof.
  unfold parseTaskStringWithAI.
  destruct (not_configured API_KEY); [done|].
  destruct outcome as [response|e]; [|done].
  destruct (parse_response _ _ _ response) as [v|e]; [|done].
  destruct v as [| | | |elements|m]; try done; intros [= <-];
    apply suggested_priority_coerced.
Qed.

Lemma suggested_priority_is_valid_witness :
  exists task,
    parseTaskStringWithAI some_key
      (parser_yielding (inl (JObj {[ lit "priority" := JStr [] ]})))
      no_fence plain_faults (CallReturns (reply priority_empty_text)) =
      Return task /\
    task_properties task !! lit "priority" = Some (JStr []) /\
    suggested_priority (task_properties task) = JStr (lit "Medium").
Proof.
  eexists. split; [reflexivity|]. split; [reflexivity|].
  destruct (suggested_priority_is_valid some_key
              (parser_yielding (inl (JObj {[ lit "priority" := JStr [] ]})))
              no_fence plain_faults (CallReturns (reply priority_empty_text))
              _ eq_refl) as [p Hp].
  rewrite Hp. by destruct p.
Defined.

(** X11. Responses that are not an object. When the text of the response
    is missing or is not valid JSON, and when it parses to [null], a
    boolean, a number or a string, [parseTaskStringWithAI] throws its own
    error, whose message is its fixed text, [" Details: "] and the message of
    the runtime's error. When it parses to an array the array is returned,
    with an empty [tags] property and no [priority]. *)
Theorem parse_non_object_responses
  API_KEY JSON_parse fenceRegex_match fault_message response :
  not_configured API_KEY = false ->
  let run :=
    parseTaskStringWithAI API_KEY JSON_parse fenceRegex_match fault_message
      (CallReturns response) in
  let failed_with message :=
    run = Throw (NewError (lit "Failed to parse task with AI." ++
                           lit " Details: " ++ message)) in
  (text response = None ->
   failed_with (fault_message (ReadPropertyOfUndefined (lit "trim")))) /\
  (forall t syntax_error,
     text response = Some t ->
     JSON_parse (strip_fence fenceRegex_match (trim t)) = inr syntax_error ->
     failed_with syntax_error) /\
  (forall v,
     parse_response JSON_parse fenceRegex_match fault_message response =
       Return v ->
     match v with
     | JObj _ => exists m', run = Return (TaskObject m')
     | JArr elements =>
         exists m',
           run = Return (TaskArray elements m') /\
           m' !! lit "tags" = Some (JArr []) /\ m' !! lit "priority" = None
     | JNull => failed_with (fault_message (ReadPropertyOfNull (lit "priority")))
     | JBool _ | JNum _ | JStr _ =>
         failed_with (fault_message (AssignPropertyOfPrimitive (lit "tags") v))
     end).
Proof.
  intros Hkey run failed_with. subst run failed_with. cbv beta.
  rewrite (parseTask_on_response _ _ _ _ _ Hkey).
  split; [|split].
  - intros Ht. unfold parse_response. by rewrite Ht.
  - intros t msg Ht Hmsg. unfold parse_response. by rewrite Ht, Hmsg.
  - intros v ->. destruct v as [| | | |elements|m]; try reflexivity.
    + exists (coerce_properties ∅). split; [reflexivity|]. split; reflexivity.
    + by exists (coerce_properties m).
Qed.

Lemma parse_non_object_responses_witness :
  parseTaskStringWithAI some_key
    (parser_yielding (inr (lit "Unexpected token"))) no_fence plain_faults
    (CallReturns (reply (lit "oops"))) =
  Throw (NewError
           (lit "Failed to parse task with AI. Details: Unexpected token")).
Proof.
  exact (proj1 (proj2 (parse_non_object_responses some_key
                         (parser_yielding (inr (lit "Unexpected token")))
                         no_fence plain_faults (reply (lit "oops")) eq_refl))
           (lit "oops") (lit "Unexpected token") eq_refl eq_refl).
Defined.

(** ** The tags returned by suggestTagsWithAI *)

Lemma replace_ws_runs_aux_no_ws r b s :
  forallb (fun c => negb (isWhiteSpace c)) r = true ->
  forallb (fun c => negb (isWhiteSpace c)) (replace_ws_runs_aux r b s) = true.
Proof.
  intros Hr. revert b. induction s as [|c s IH]; intros b; simpl; [done|].
  destruct (isWhiteSpace c) eqn:Hc.
  - rewrite forallb_app, IH, andb_true_r. by destruct b.
  - simpl. by rewrite Hc, IH.
Qed.

(** X12. Every tag [suggestTagsWithAI] returns is free of white space,
    whatever [toLowerCase] does; and for a response that parses as an array
    of strings it returns as many tags as the array has elements: empty and
    repeated elements are neither dropped nor merged. *)
Theorem suggest_tags_shape
  API_KEY JSON_parse fenceRegex_match toLowerCase fault_message response tags :
  suggestTagsWithAI API_KEY JSON_parse fenceRegex_match toLowerCase
    fault_message (CallReturns response) = Return tags ->
  Forall (fun tag => forallb (fun c => negb (isWhiteSpace c)) tag = true) tags /\
  (forall elements,
     parse_response JSON_parse fenceRegex_match fault_message response =
       Return (JArr elements) ->
     forallb isString elements = true ->
     length tags = length elements).
Proof.
  unfold suggestTagsWithAI. destruct (not_configured API_KEY); [done|].
  destruct (parse_response _ _ _ response) as [v|e]; [|done].
  intros [= <-]. split.
  - unfold tags_of_parsed. destruct v as [| | | |elements|]; try constructor.
    destruct (forallb isString elements); [|constructor].
    apply Forall_map, Forall_forall. intros tag _.
    by apply replace_ws_runs_aux_no_ws.
  - intros elements [= ->] Hall. unfold tags_of_parsed. rewrite Hall.
    by rewrite length_map.
Qed.

Lemma suggest_tags_shape_witness :
  let tags := [lit "-big-report-"; []; lit "q3"; lit "q3"] in
  Forall (fun tag => forallb (fun c => negb (isWhiteSpace c)) tag = true) tags /\
  length tags = 4%nat.
Proof.
  intros tags.
  destruct (suggest_tags_shape some_key
              (parser_yielding
                 (inl (JArr [JStr (lit " Big  Report "); JStr [];
                             JStr (lit "Q3"); JStr (lit "q3")])))
              no_fence ascii_toLowerCase plain_faults (reply (lit "[...]"))
              tags eq_refl) as [Hclean Hlen].
  split; [exact Hclean|].
  exact (Hlen _ eq_refl eq_refl).
Defined.

(** * Properties of the tags field *)

(** ** Splitting and joining *)

Lemma split_clean t sep : sep ∉ t -> split t sep = [t].
Proof.
  induction t as [|c t IH]; intros Ht; simpl; [done|].
  apply not_elem_of_cons in Ht as [Hc Ht].
  destruct (N.eqb_spec c sep) as [->|_]; [done|]. by rewrite IH.
Qed.

Lemma split_app t s sep :
  sep ∉ t -> split (t ++ sep :: s) sep = t :: split s sep.
Proof.
  induction t as [|c t IH]; intros Ht; simpl.
  - by rewrite N.eqb_refl.
  - apply not_elem_of_cons in Ht as [Hc Ht].
    destruct (N.eqb_spec c sep) as [->|_]; [done|]. by rewrite IH.
Qed.

Lemma split_pieces s sep : Forall (fun piece => sep ∉ piece) (split s sep).
Proof.
  induction s as [|c s IH]; simpl.
  - constructor; [apply not_elem_of_nil|constructor].
  - destruct (N.eqb_spec c sep) as [->|Hne].
    + constructor; [apply not_elem_of_nil|done].
    + destruct (split s sep) as [|piece pieces].
      * constructor; [|constructor].
        apply not_elem_of_cons. split; [congruence|apply not_elem_of_nil].
      * inversion IH; subst. constructor; [|done].
        apply not_elem_of_cons. split; [congruence|done].
Qed.

Lemma split_join ts :
  Forall (fun t => COMMA ∉ t) ts ->
  split (join ts (lit ", ")) COMMA =
  match ts with
  | [] => [[]]
  | t :: r => t :: map (fun x => 32%N :: x) r
  end.
Proof.
  induction ts as [|t r IH]; intros Hts; [done|].
  inversion Hts as [|? ? Ht Hr]; subst. specialize (IH Hr).
  destruct r as [|t' r'].
  - simpl. by apply split_clean.
  - change (join (t :: t' :: r') (lit ", "))
      with (t ++ COMMA :: 32%N :: join (t' :: r') (lit ", ")).
    rewrite (split_app _ _ _ Ht). f_equal.
    cbn [split]. change (32 =? COMMA)%N with false. cbv iota.
    rewrite IH. reflexivity.
Qed.

(** ** Trimming what is already trimmed *)

Lemma trimStart_clean_id (t : jstring) :
  starts_with_ws t = false -> trimStart t = t.
Proof. destruct t as [|c t]; simpl; [done|]. by intros ->. Qed.

Lemma trim_trimmed (t : jstring) :
  starts_with_ws t = false -> ends_with_ws t = false -> trim t = t.
Proof.
  intros Hs He. unfold trim, trimEnd. rewrite (trimStart_clean_id t Hs).
  rewrite trimStart_clean_id; [apply reverse_involutive|].
  rewrite starts_with_ws_head, head_reverse. exact He.
Qed.

Lemma trim_after_space (t : jstring) : trim (32%N :: t) = trim t.
Proof. reflexivity. Qed.

Lemma ws_free_trimmed (t : jstring) :
  forallb (fun c => negb (isWhiteSpace c)) t = true ->
  starts_with_ws t = false /\ ends_with_ws t = false.
Proof.
  intros H. rewrite forallb_forall in H. split.
  - destruct t as [|c t]; [done|]. simpl.
    apply negb_true_iff, H. by left.
  - unfold ends_with_ws. destruct (last t) as [c|] eqn:Hl; [|done].
    apply negb_true_iff, H, list_elem_of_In.
    apply last_Some in Hl as [l' ->]. set_solver.
Qed.

Lemma existingTags_join ts :
  Forall field_tag ts -> existingTags (join ts (lit ", ")) = ts.
Proof.
  intros Hts. unfold existingTags. rewrite split_join.
  - destruct Hts as [|t r (Ht & _ & Hs & He) Hr]; [done|].
    cbn [map List.filter]. rewrite (trim_trimmed t Hs He).
    replace (truthy t) with true by (by destruct t). f_equal.
    induction Hr as [|t' r' (Ht' & _ & Hs' & He') Hr' IH]; [done|].
    cbn [map List.filter]. rewrite trim_after_space, (trim_trimmed t' Hs' He').
    replace (truthy t') with true by (by destruct t'). by f_equal.
  - eapply Forall_impl; [exact Hts|]. by intros t (_ & Hc & _).
Qed.

Lemma existingTags_field current : Forall field_tag (existingTags current).
Proof.
  unfold existingTags. apply Forall_forall. intros t Ht.
  apply list_elem_of_In, filter_In in Ht as [Hin Htruthy].
  apply in_map_iff in Hin as (piece & <- & Hpiece).
  pose proof (split_pieces current COMMA) as Hpieces.
  rewrite Forall_forall in Hpieces.
  apply list_elem_of_In, Hpieces in Hpiece.
  destruct (trim_spec piece) as (_ & Hs & He).
  repeat split; try done.
  - intros E. by rewrite E in Htruthy.
  - intros Hc. by apply trim_elem_of in Hc.
Qed.

Lemma includes_elem_of l s : includes l s = true <-> s ∈ l.
Proof.
  unfold includes. rewrite existsb_exists, list_elem_of_In. split.
  - intros (x & Hx & Heq). by apply bool_decide_eq_true in Heq as ->.
  - intros Hs. exists s. split; [done|]. by apply bool_decide_eq_true.
Qed.

(** ** Submitting the form *)

Lemma finalTags_join toLowerCase ts :
  toLowerCase [] = [] ->
  Forall (saved_tag toLowerCase) ts ->
  finalTags toLowerCase (join ts (lit ", ")) = ts.
Proof.
  intros Hempty Hts. unfold finalTags. rewrite split_join.
  - assert (Hone : forall t, saved_tag toLowerCase t ->
              replace_ws_runs (toLowerCase (trim t)) (lit "-") = t /\
              truthy t = true).
    { intros t (Hne & _ & Hws & Hlow).
      destruct (ws_free_trimmed t Hws) as [Hs He].
      rewrite (trim_trimmed t Hs He), Hlow. split.
      - by apply replace_ws_runs_aux_clean.
      - by destruct t. }
    destruct Hts as [|t r Ht Hr].
    + simpl. change (trim []) with (@nil code_unit). by rewrite Hempty.
    + cbn [map List.filter]. destruct (Hone t Ht) as [-> ->]. f_equal.
      induction Hr as [|t' r' Ht' Hr' IH]; [done|].
      cbn [map List.filter]. rewrite trim_after_space.
      destruct (Hone t' Ht') as [-> ->]. by f_equal.
  - eapply Forall_impl; [exact Hts|]. by intros t (_ & Hc & _).
Qed.

(** X13. What [handleSubmit] lets through. With a blank title nothing is
    submitted and the form shows ["Title is required."]. Otherwise the data
    submitted has that title, a new task always has the status [ToDo]
    whatever the form holds, and every submitted tag is non-empty and free
    of white space, whatever was typed in the tags field (empty pieces
    between commas are dropped). *)
Theorem handleSubmit_checks toLowerCase task f :
  (truthy (trim (form_title f)) = false ->
   handleSubmit toLowerCase task f =
   (setEnhancementError f (Some (lit "Title is required.")), None)) /\
  (forall data,
     (handleSubmit toLowerCase task f).2 = Some data ->
     truthy (trim (td_title data)) = true /\
     (handleSubmit toLowerCase task f).1 = f /\
     (task = None -> td_status data = ToDo) /\
     Forall (fun tag =>
               tag <> [] /\
               forallb (fun c => negb (isWhiteSpace c)) tag = true)
       (td_tags data)).
Proof.
  unfold handleSubmit. split.
  - by intros ->.
  - intros data. destruct (truthy (trim (form_title f))) eqn:Ht; [|done].
    cbn [negb snd fst]. intros [= <-]. cbn [td_title td_status td_tags].
    split; [done|]. split; [done|]. split; [by intros ->|].
    unfold finalTags. apply Forall_forall. intros tag Htag.
    apply list_elem_of_In, filter_In in Htag as [Hin Htruthy].
    apply in_map_iff in Hin as (piece & <- & _). split.
    + intros E. by rewrite E in Htruthy.
    + by apply replace_ws_runs_aux_no_ws.
Qed.

Lemma handleSubmit_checks_witness :
  let f := setTags (form_with (lit "Plan trip") []) (lit " Big  Trip ,, x") in
  exists data,
    (handleSubmit ascii_toLowerCase None f).2 = Some data /\
    td_tags data = [lit "big-trip"; lit "x"] /\ td_status data = ToDo.
Proof.
  intros f. eexists. split; [reflexivity|].
  destruct (proj2 (handleSubmit_checks ascii_toLowerCase None f) _ eq_refl)
    as (_ & _ & Hstatus & _).
  split; [reflexivity|]. exact (Hstatus eq_refl).
Defined.

(** X14. Opening a task in the form and submitting it untouched gives the
    task back: its id, title, priority and status, its description and due
    date (empty when it had none), its sources, and its tags in their
    order, provided the title is not blank and each tag is one the form
    would have saved (non-empty, no comma, no white space, lower case). *)
Theorem edit_untouched_round_trip toLowerCase task :
  truthy (trim (task_title task)) = true ->
  toLowerCase [] = [] ->
  Forall (saved_tag toLowerCase) (default [] (task_tags task)) ->
  handleSubmit toLowerCase (Some task) (form_of_task task) =
  (form_of_task task,
   Some {| td_id := Some (task_id task);
           td_title := task_title task;
           td_description := or_else (task_description task) [];
           td_dueDate := or_else (task_dueDate task) [];
           td_priority := task_priority task;
           td_status := task_status task;
           td_tags := default [] (task_tags task);
           td_contextualSources := default [] (task_contextualSources task) |}).
Proof.
  intros Htitle Hempty Htags. unfold handleSubmit.
  cbn [form_of_task form_title form_description form_dueDate form_priority
       form_status form_tags form_contextualSources].
  rewrite Htitle. cbn [negb fmap option_fmap option_map].
  f_equal. f_equal. f_equal.
  destruct (task_tags task) as [ts|]; cbn [default] in *.
  - replace (if truthy (join ts (lit ", ")) then join ts (lit ", ") else [])
      with (join ts (lit ", ")) by (by destruct (join ts (lit ", "))).
    by apply finalTags_join.
  - exact (finalTags_join toLowerCase [] Hempty Htags).
Qed.

Lemma edit_untouched_round_trip_witness :
  exists data,
    (handleSubmit ascii_toLowerCase (Some report_task)
       (form_of_task report_task)).2 = Some data /\
    td_tags data = [lit "work"; lit "q3-report"] /\
    td_id data = Some (lit "k3j9x0q1z") /\
    td_status data = InProgress.
Proof.
  assert (Htags : Forall (saved_tag ascii_toLowerCase)
                    (default [] (task_tags report_task))).
  { repeat constructor; try discriminate; solve_absent. }
  rewrite (edit_untouched_round_trip ascii_toLowerCase report_task
             eq_refl eq_refl Htags).
  eexists. split; [reflexivity|]. repeat split.
Defined.

(** ** Suggesting tags *)

Lemma merge_tags_existing current suggested :
  Forall field_tag suggested ->
  existingTags (merge_tags current suggested) =
  existingTags current ++
  List.filter (fun s => negb (includes (existingTags current) s)) suggested.
Proof.
  intros Hs. unfold merge_tags. apply existingTags_join.
  apply Forall_app. split; [apply existingTags_field|].
  apply Forall_forall. intros t Ht.
  apply list_elem_of_In, filter_In in Ht as [Hin _].
  rewrite Forall_forall in Hs. by apply Hs, list_elem_of_In.
Qed.

Lemma filter_none {A} (p : A -> bool) (l : list A) :
  (forall x, In x l -> p x = false) -> List.filter p l = [].
Proof.
  induction l as [|x l IH]; intros H; simpl; [done|].
  rewrite (H x) by (by left). apply IH. intros y Hy. apply H. by right.
Qed.

(** X15. [handleSuggestTags]. When the service throws, the tags field is
    untouched and the error line shows the message. When it returns, the
    field becomes the tags it held (trimmed, empty pieces dropped, order
    kept) followed by the suggested tags it did not hold, joined by [", "].
    If the suggestions are non-empty, comma-free and trimmed, reading the
    field back gives exactly those tags, and suggesting the same tags again
    changes nothing. *)
Theorem handleSuggestTags_merges
  API_KEY JSON_parse fenceRegex_match toLowerCase fault_message f outcome :
  let run :=
    suggestTagsWithAI API_KEY JSON_parse fenceRegex_match toLowerCase
      fault_message outcome in
  let f' :=
    handleSuggestTags API_KEY JSON_parse fenceRegex_match toLowerCase
      fault_message f outcome in
  (forall e, run = Throw e ->
     form_tags f' = form_tags f /\
     tagsError f' = Some (message_of e)) /\
  (forall suggested, run = Return suggested ->
     f' = setTags (setTagsError f None) (merge_tags (form_tags f) suggested) /\
     (Forall field_tag suggested ->
      existingTags (form_tags f') =
        existingTags (form_tags f) ++
        List.filter (fun s => negb (includes (existingTags (form_tags f)) s))
          suggested /\
      merge_tags (form_tags f') suggested = form_tags f')).
Proof.
  intros run f'. subst f'. unfold handleSuggestTags. fold run. split.
  - intros e Hrun. rewrite Hrun. split; [reflexivity|].
    cbn [tagsError setTagsError]. f_equal. unfold message_or.
    replace (instanceofError e) with true; [done|].
    subst run. unfold suggestTagsWithAI in Hrun.
    destruct (not_configured API_KEY); [by injection Hrun as <-|].
    destruct outcome as [response|e0]; [|by injection Hrun as <-].
    destruct (parse_response _ _ _ response); [done|by injection Hrun as <-].
  - intros suggested Hrun. rewrite Hrun. split; [reflexivity|].
    intros Hs. cbn [form_tags setTags setTagsError].
    split; [by apply merge_tags_existing|].
    unfold merge_tags at 1. rewrite (merge_tags_existing _ _ Hs).
    set (E := existingTags (form_tags f)).
    set (N := List.filter (fun s => negb (includes E s)) suggested).
    replace (List.filter (fun s => negb (includes (E ++ N) s)) suggested)
      with (@nil jstring); [by rewrite app_nil_r|].
    symmetry. apply filter_none.
    intros s Hin. apply negb_false_iff, includes_elem_of.
    destruct (includes E s) eqn:Hinc.
    + apply elem_of_app. left. by apply includes_elem_of.
    + apply elem_of_app. right. subst N.
      apply list_elem_of_In, filter_In. split; [done|]. by rewrite Hinc.
Qed.

Lemma handleSuggestTags_merges_witness :
  let f := setTags (form_with (lit "Report") []) (lit "work,  q3 ,") in
  let parse := parser_yielding (inl (JArr [JStr (lit "Q3"); JStr (lit "Due Soon")])) in
  let f' :=
    handleSuggestTags some_key parse no_fence ascii_toLowerCase plain_faults
      f (CallReturns (reply (lit "[...]"))) in
  form_tags f' = lit "work, q3, due-soon" /\
  existingTags (form_tags f') = [lit "work"; lit "q3"; lit "due-soon"] /\
  merge_tags (form_tags f') [lit "q3"; lit "due-soon"] = form_tags f'.
Proof.
  intros f parse f'.
  destruct (proj2 (handleSuggestTags_merges some_key parse no_fence
                     ascii_toLowerCase plain_faults f
                     (CallReturns (reply (lit "[...]"))))
              [lit "q3"; lit "due-soon"] eq_refl) as [Hf' Hclean].
  fold f' in Hf', Hclean.
  assert (Hs : Forall field_tag [lit "q3"; lit "due-soon"]).
  { repeat constructor; try discriminate; solve_absent. }
  destruct (Hclean Hs) as [Hread Hagain].
  split; [by rewrite Hf'|]. split; [by rewrite Hread|exact Hagain].
Defined.

(** * Properties of the application *)

Lemma jstring_eqb_eq (a b : jstring) : jstring_eqb a b = true <-> a = b.
Proof. apply bool_decide_eq_true. Qed.

Lemma jstring_eqb_ne (a b : jstring) : jstring_eqb a b = false <-> a <> b.
Proof. apply bool_decide_eq_false. Qed.

(** ** Saving the form *)

(** X16. [handleFormSubmit]. With the id of an existing task it rewrites
    the tasks with that id in place: the list keeps its length, its order,
    its ids and every creation time; tasks with another id are untouched;
    when no task has the id nothing changes at all. Without an id (or with
    an empty one) it puts one new task in front, with the generated id, the
    given creation time and the status [ToDo] whatever was submitted. In
    both cases the dialog is closed and the error cleared. *)
Theorem handleFormSubmit_saves s taskData generated_id now :
  let s' := handleFormSubmit s taskData generated_id now in
  (forall id,
     td_id taskData = Some id -> truthy id = true ->
     map task_id (tasks s') = map task_id (tasks s) /\
     map task_createdAt (tasks s') = map task_createdAt (tasks s) /\
     (forall i t,
        tasks s !! i = Some t ->
        tasks s' !! i =
        Some (if jstring_eqb (task_id t) id
              then merge_task t taskData id else t)) /\
     (id ∉ map task_id (tasks s) -> tasks s' = tasks s)) /\
  (truthy (default [] (td_id taskData)) = false ->
   tasks s' = new_task taskData generated_id now :: tasks s /\
   task_status (new_task taskData generated_id now) = ToDo) /\
  isModalOpen s' = false /\ editingTask s' = None /\
  aiSuggestedTask s' = None /\ app_error s' = None /\ isSubmitting s' = false.
Proof.
  intros s'. subst s'. unfold handleFormSubmit.
  split; [|split].
  - intros id Hid Htruthy. rewrite Hid.
    change (default [] (Some id)) with id. rewrite Htruthy.
    cbn [tasks setIsSubmitting closeModal setTasks].
    split; [|split; [|split]].
    + rewrite map_map. apply map_ext. intros t.
      destruct (jstring_eqb (task_id t) id) eqn:E; [|done].
      by apply jstring_eqb_eq in E.
    + rewrite map_map. apply map_ext. intros t.
      by destruct (jstring_eqb (task_id t) id).
    + intros i t Ht. by rewrite list_lookup_fmap, Ht.
    + intros Habsent. rewrite <- (map_id (tasks s)) at 2.
      apply map_ext_in. intros t Ht.
      destruct (jstring_eqb (task_id t) id) eqn:E; [|done].
      apply jstring_eqb_eq in E. exfalso. apply Habsent.
      rewrite <- E. apply list_elem_of_In, in_map, Ht.
  - intros ->. by cbn [tasks setIsSubmitting closeModal setTasks].
  - by destruct (truthy _).
Qed.

Lemma handleFormSubmit_saves_witness :
  let s :=
    {| tasks := [report_task]; isModalOpen := true;
       editingTask := Some report_task; aiSuggestedTask := None;
       app_error := None; isSubmitting := false |} in
  let data :=
    {| td_id := Some (lit "k3j9x0q1z"); td_title := lit "Submit report";
       td_description := []; td_dueDate := [];
       td_priority := Low; td_status := Done; td_tags := [];
       td_contextualSources := [] |} in
  let s' := handleFormSubmit s data (lit "new") (lit "2025-06-02") in
  map task_createdAt (tasks s') = [lit "2025-06-01T09:00:00.000Z"] /\
  map task_title (tasks s') = [lit "Submit report"].
Proof.
  intros s data s'.
  destruct (proj1 (handleFormSubmit_saves s data (lit "new") (lit "2025-06-02"))
              (lit "k3j9x0q1z") eq_refl eq_refl)
    as (_ & Hcreated & Hat & _).
  split; [exact Hcreated|].
  pose proof (Hat 0%nat report_task eq_refl) as H0. fold s' in H0.
  destruct (tasks s') as [|t [|t' r]] eqn:E; try discriminate H0;
    [|by apply (f_equal length) in Hcreated].
  injection H0 as ->. reflexivity.
Defined.

(** ** Deleting and changing the status *)

(** X17. [handleDeleteTask]. Once confirmed, no task with the id is left,
    every task with another id is still there and the remaining tasks keep
    their order; deleting the same id again, or an id no task has, changes
    nothing. Without confirmation nothing changes. *)
Theorem handleDeleteTask_removes s taskId :
  let s' := handleDeleteTask s taskId true in
  (taskId ∉ map task_id (tasks s')) /\
  (forall t, t ∈ tasks s' <-> t ∈ tasks s /\ task_id t <> taskId) /\
  sublist (tasks s') (tasks s) /\
  handleDeleteTask s' taskId true = s' /\
  ((taskId ∉ map task_id (tasks s)) -> tasks s' = tasks s) /\
  handleDeleteTask s taskId false = s.
Proof.
  intros s'. subst s'. unfold handleDeleteTask.
  cbn [tasks setTasks].
  set (keep := fun t => negb (jstring_eqb (task_id t) taskId)).
  assert (Hkeep : forall t, keep t = true <-> task_id t <> taskId).
  { intros t. unfold keep. rewrite negb_true_iff. apply jstring_eqb_ne. }
  split; [|split; [|split; [|split; [|split]]]].
  - intros Hin. apply list_elem_of_In, in_map_iff in Hin as (t & Hid & Ht).
    apply filter_In in Ht as [_ Hk]. by apply Hkeep in Hk.
  - intros t. rewrite !list_elem_of_In, filter_In. by rewrite Hkeep.
  - induction (tasks s) as [|t l IH]; simpl; [constructor|].
    destruct (keep t); by constructor.
  - unfold setTasks. cbn [tasks isModalOpen editingTask aiSuggestedTask
                           app_error isSubmitting].
    f_equal. induction (tasks s) as [|t l IH]; simpl; [done|].
    destruct (keep t) eqn:E; simpl; [|done]. by rewrite E, IH.
  - intros Habsent. induction (tasks s) as [|t l IH]; simpl; [done|].
    simpl in Habsent. apply not_elem_of_cons in Habsent as [Hne Hl].
    replace (keep t) with true by (symmetry; by apply Hkeep).
    by rewrite IH.
  - reflexivity.
Qed.

(** X18. [handleStatusChange] sets the status of the tasks with the given
    id and touches nothing else: the list keeps its length, its order and
    all its ids, a task with another id is as before, and a task with the
    id differs from before in its status only. A second change of the same
    id overrides the first. *)
Theorem handleStatusChange_sets s taskId newStatus :
  let s' := handleStatusChange s taskId newStatus in
  map task_id (tasks s') = map task_id (tasks s) /\
  (forall i t,
     tasks s !! i = Some t ->
     tasks s' !! i =
     Some (if jstring_eqb (task_id t) taskId
           then with_status t newStatus else t)) /\
  (forall t, t ∈ tasks s' -> task_id t = taskId -> task_status t = newStatus) /\
  (forall later,
     handleStatusChange s' taskId later = handleStatusChange s taskId later).
Proof.
  intros s'. subst s'. unfold handleStatusChange. cbn [tasks setTasks].
  split; [|split; [|split]].
  - rewrite map_map. apply map_ext. intros t.
    by destruct (jstring_eqb (task_id t) taskId).
  - intros i t Ht. by rewrite list_lookup_fmap, Ht.
  - intros t Ht Hid. apply list_elem_of_In, in_map_iff in Ht as (t0 & <- & _).
    destruct (jstring_eqb (task_id t0) taskId) eqn:E; [done|].
    apply jstring_eqb_ne in E. by destruct E.
  - intros later. unfold setTasks.
    cbn [tasks isModalOpen editingTask aiSuggestedTask app_error isSubmitting].
    f_equal. rewrite map_map. apply map_ext. intros t.
    destruct (jstring_eqb (task_id t) taskId) eqn:E; cbn [task_id with_status];
      by rewrite E.
Qed.

Lemma handleDeleteTask_removes_witness :
  let s :=
    {| tasks := [report_task]; isModalOpen := false; editingTask := None;
       aiSuggestedTask := None; app_error := None; isSubmitting := false |} in
  tasks (handleDeleteTask s (lit "other") true) = [report_task] /\
  (report_task ∈ tasks (handleDeleteTask s (lit "other") true)).
Proof.
  intros s.
  destruct (handleDeleteTask_removes s (lit "other"))
    as (_ & Hin & _ & _ & Habsent & _).
  split.
  - apply Habsent. solve_absent.
  - apply Hin. split; [by apply list_elem_of_singleton|discriminate].
Defined.

Lemma handleStatusChange_sets_witness :
  let s :=
    {| tasks := [report_task]; isModalOpen := false; editingTask := None;
       aiSuggestedTask := None; app_error := None; isSubmitting := false |} in
  tasks (handleStatusChange s (lit "k3j9x0q1z") Done) !! 0%nat =
    Some (with_status report_task Done) /\
  task_status (with_status report_task Done) = Done.
Proof.
  intros s.
  destruct (handleStatusChange_sets s (lit "k3j9x0q1z") Done)
    as (_ & Hat & Hstatus & _).
  split.
  - exact (Hat 0%nat report_task eq_refl).
  - apply Hstatus; [|reflexivity].
    apply list_elem_of_lookup. exists 0%nat.
    exact (Hat 0%nat report_task eq_refl).
Defined.

(** ** The order of the cards *)

Section CardOrder.

Variable Date_getTime : jstring -> option Z.

#[local] Abbreviation cmp := (compare_tasks Date_getTime).
#[local] Abbreviation before := (stands_before Date_getTime).
#[local] Abbreviation dated := (dated Date_getTime).

Lemma compare_tasks_positive a b :
  dated a -> dated b -> is_positive (cmp a b) = true -> before b a.
Proof.
  intros [ta Ha] [tb Hb]. unfold compare_tasks, stands_before.
  rewrite Ha, Hb.
  destruct (Z.eqb_spec (statusOrder (task_status a))
              (statusOrder (task_status b))) as [Hs|Hs]; cbn [negb].
  - destruct (Z.eqb_spec (priorityOrder (task_priority a))
                (priorityOrder (task_priority b))) as [Hp|Hp]; cbn [negb].
    + cbn [is_positive]. intros H%Z.ltb_lt. right. split; [done|]. right.
      split; [done|]. exists tb, ta. repeat split; try done. lia.
    + cbn [is_positive]. intros H%Z.ltb_lt. right. split; [done|]. left. lia.
  - cbn [is_positive]. intros H%Z.ltb_lt. left. lia.
Qed.

Lemma compare_tasks_not_positive a b :
  dated a -> dated b -> is_positive (cmp a b) = false -> before a b.
Proof.
  intros [ta Ha] [tb Hb]. unfold compare_tasks, stands_before.
  rewrite Ha, Hb.
  destruct (Z.eqb_spec (statusOrder (task_status a))
              (statusOrder (task_status b))) as [Hs|Hs]; cbn [negb].
  - destruct (Z.eqb_spec (priorityOrder (task_priority a))
                (priorityOrder (task_priority b))) as [Hp|Hp]; cbn [negb].
    + cbn [is_positive]. intros H%Z.ltb_ge. right. split; [done|]. right.
      split; [done|]. exists ta, tb. repeat split; try done. lia.
    + cbn [is_positive]. intros H%Z.ltb_ge. right. split; [done|]. left. lia.
  - cbn [is_positive]. intros H%Z.ltb_ge. left. lia.
Qed.

Lemma stands_before_trans a b c : before a b -> before b c -> before a c.
Proof.
  unfold stands_before.
  intros [H1|[E1 [P1|[Q1 (ta & tb & Ha & Hb & T1)]]]]
         [H2|[E2 [P2|[Q2 (tb' & tc & Hb' & Hc & T2)]]]];
    try (left; lia); try (right; split; [lia|]; left; lia).
  right. split; [lia|]. right. split; [lia|].
  rewrite Hb in Hb'. injection Hb' as <-.
  exists ta, tc. repeat split; try done. lia.
Qed.

Lemma sort_insert_perm x (l : list Task) : sort_insert cmp x l ≡ₚ x :: l.
Proof.
  induction l as [|y r IH]; simpl; [done|].
  destruct (is_positive (cmp x y)); [|done].
  rewrite IH. apply Permutation_swap.
Qed.

Lemma sort_perm (l : list Task) : sort l cmp ≡ₚ l.
Proof.
  unfold sort. induction l as [|x l IH]; simpl; [done|].
  by rewrite sort_insert_perm, IH.
Qed.

Lemma sort_insert_sorted x (l : list Task) :
  dated x -> Forall dated l ->
  StronglySorted before l -> StronglySorted before (sort_insert cmp x l).
Proof.
  intros Hx Hl Hsorted. induction Hsorted as [|y r Hr IH Hy]; simpl.
  - repeat constructor.
  - inversion Hl as [|? ? Hdy Hdr]; subst.
    destruct (is_positive (cmp x y)) eqn:E.
    + constructor; [by apply IH|].
      rewrite sort_insert_perm. constructor; [|done].
      by apply compare_tasks_positive.
    + pose proof (compare_tasks_not_positive x y Hx Hdy E) as Hxy.
      constructor; [by constructor|]. constructor; [done|].
      eapply Forall_impl; [exact Hy|]. intros z Hz.
      by apply (stands_before_trans x y z).
Qed.

(** X19. The cards are shown in the order of [sortedTasks]: when every task
    has a valid creation date, the list shown is a rearrangement of the
    tasks (none lost, none repeated) in which each task stands before all
    those after it: by status ([ToDo], [InProgress], [Done]), within a
    status by priority ([High], [Medium], [Low]), within a priority the
    most recently created first. *)
Theorem sortedTasks_ordered s :
  Forall dated (tasks s) ->
  sortedTasks Date_getTime s ≡ₚ tasks s /\
  StronglySorted before (sortedTasks Date_getTime s).
Proof.
  intros Hd. split; [apply sort_perm|].
  unfold sortedTasks, sort. induction Hd as [|x l Hx Hl IH]; simpl.
  - constructor.
  - apply sort_insert_sorted; [done| |done].
    fold (sort l cmp). by rewrite sort_perm.
Qed.

End CardOrder.

Lemma sortedTasks_ordered_witness :
  let done_high := card "a" Done High "1" in
  let todo_low := card "b" ToDo Low "1" in
  let todo_high_old := card "c" ToDo High "1" in
  let todo_high_new := card "d" ToDo High "2" in
  let doing := card "e" InProgress Medium "1" in
  let s :=
    {| tasks := [archived_task; done_high; todo_low; todo_high_old;
                 report_task; todo_high_new; doing];
       isModalOpen := false; editingTask := None; aiSuggestedTask := None;
       app_error := None; isSubmitting := false |} in
  sortedTasks example_getTime s ≡ₚ tasks s /\
  StronglySorted (stands_before example_getTime)
    [todo_high_new; todo_high_old; todo_low; report_task; doing;
     done_high; archived_task].
Proof.
  intros done_high todo_low todo_high_old todo_high_new doing.
  intros s.
  assert (Hd : Forall (dated example_getTime) (tasks s)).
  { repeat constructor; by eexists. }
  exact (sortedTasks_ordered example_getTime s Hd).
Defined.

(** * The missing key *)

(** X20. Without a key (absent, or the empty string) no AI action of the
    form reaches the transport: whatever the transport would have done, the
    title, the description and the tags are as they were and the action's
    own error line shows ["Gemini API key not configured."]; fetching
    context has, in addition, cleared the sources. *)
Theorem form_actions_without_key
  API_KEY JSON_parse fenceRegex_match toLowerCase fault_message
  f stream_attempt call_attempt :
  not_configured API_KEY = true ->
  let message := Some (lit "Gemini API key not configured.") in
  handleAiEnhance API_KEY f stream_attempt =
    setEnhancementError f message /\
  handleSuggestSubtasks API_KEY f stream_attempt =
    setSubtasksError f message /\
  handleFetchContext API_KEY f stream_attempt =
    setContextError (setContextualSources f []) message /\
  handleSuggestTags API_KEY JSON_parse fenceRegex_match toLowerCase
    fault_message f call_attempt = setTagsError f message.
Proof.
  intros Hkey message.
  unfold handleAiEnhance, handleSuggestSubtasks, handleFetchContext,
    handleSuggestTags, enhanceTaskWithAIStream, streamSubTasksWithAI,
    suggestTagsWithAI.
  rewrite streamContextualInfoWithAI_returning, Hkey.
  repeat apply conj; reflexivity.
Qed.

Lemma form_actions_without_key_witness :
  let f := form_with (lit "Trip") (lit "Book hotel") in
  form_description (handleSuggestSubtasks (Some []) f (Stream buy_milk None)) =
    lit "Book hotel" /\
  subtasksError (handleSuggestSubtasks (Some []) f (Stream buy_milk None)) =
    Some (lit "Gemini API key not configured.").
Proof.
  intros f.
  destruct (form_actions_without_key (Some []) (parser_yielding (inl JNull))
              no_fence ascii_toLowerCase plain_faults f
              (Stream buy_milk None) (CallThrows (NewError [])) eq_refl)
    as (_ & Hsub & _).
  rewrite Hsub. split; reflexivity.
Defined.
